(** * The markdown pipeline of the blog: a shallow embedding

    The definitions below follow [src/utils/markdown.ts]: the language
    resolver, the highlighter adapter, the definition-list extension of the
    block grammar, the image renderer, the anchor transform handed to the
    sanitizer and the entry point [renderMarkdown].

    JavaScript strings are sequences of UTF-16 code units; they are embedded
    as lists of [N].  The three libraries the module imports ([marked],
    [highlight.js], [sanitize-html]) are not part of the repository: what the
    module asks of them enters as section variables.  What the sanitizer
    does with the policy of the module is modelled from the specification,
    on parsed fragments and, for its passes from string to string, with the
    reading and the writing of a fragment. *)

From Stdlib Require Import NArith String Ascii.
From stdpp Require Import ssreflect base option list gmap.

#[local] Set Warnings "-rewrite-rw".

Abbreviation jsstring := (list N).

(** ** Strings *)

Module Js.

(** A string literal of the source, read as code units. *)
Definition lit (s : string) : jsstring :=
  N_of_ascii <$> list_ascii_of_string s.
Arguments lit s%_string.

(** U+000A, the only character the regular expressions name by escape. *)
Definition LF : N := 10.

(** [\s], [String.prototype.trim]: WhiteSpace and LineTerminator of
    ECMA-262. *)
Definition isWhiteSpace (c : N) : bool :=
  ((9 <=? c) && (c <=? 13) || (c =? 32) || (c =? 160) || (c =? 5760)
   || (8192 <=? c) && (c <=? 8202) || (c =? 8232) || (c =? 8233)
   || (c =? 8239) || (c =? 8287) || (c =? 12288) || (c =? 65279))%N.

(** LineTerminator: what [.] refuses to match. *)
Definition isLineTerminator (c : N) : bool :=
  ((c =? 10) || (c =? 13) || (c =? 8232) || (c =? 8233))%N.

Fixpoint trimStart (s : jsstring) : jsstring :=
  match s with
  | c :: s' => if isWhiteSpace c then trimStart s' else s
  | [] => []
  end.

Definition trimEnd (s : jsstring) : jsstring :=
  reverse (trimStart (reverse s)).

Definition trim (s : jsstring) : jsstring := trimEnd (trimStart s).

(** [s.split(/\s+/)]: the pieces between maximal runs of white space; a
    run at either end leaves an empty piece there, and the empty string
    splits into one empty piece.  [inSep] records that the previous code
    unit belonged to a separator. *)
Fixpoint splitAux (inSep : bool) (s : jsstring) : list jsstring :=
  match s with
  | [] => [[]]
  | c :: s' =>
      if isWhiteSpace c then
        if inSep then splitAux true s' else [] :: splitAux true s'
      else
        match splitAux false s' with
        | p :: ps => (c :: p) :: ps
        | [] => [[c]]
        end
  end.

Definition splitWhiteSpace (s : jsstring) : list jsstring := splitAux false s.

(** [parts.join(sep)]. *)
Fixpoint join (sep : jsstring) (parts : list jsstring) : jsstring :=
  match parts with
  | [] => []
  | [p] => p
  | p :: ps => p ++ sep ++ join sep ps
  end.

Definition isBasicLatin (c : N) : bool := (c <? 128)%N.

Definition lowerBasicLatin (c : N) : N :=
  if ((65 <=? c) && (c <=? 90))%N then (c + 32)%N else c.

(** [String.prototype.toLowerCase].  On Basic Latin text it maps [A-Z] to
    [a-z] unit by unit; the Unicode case tables that decide every other
    string belong to the runtime and are taken as [unicodeLower]. *)
Definition toLowerCase (unicodeLower : jsstring → jsstring) (s : jsstring)
  : jsstring :=
  if forallb isBasicLatin s then lowerBasicLatin <$> s else unicodeLower s.

(** Does [s] begin with [p]? *)
Fixpoint startsWith (p s : jsstring) : bool :=
  match p, s with
  | [], _ => true
  | a :: p', b :: s' => (a =? b)%N && startsWith p' s'
  | _ :: _, [] => false
  end.

(** The same, under the [i] flag of a regular expression without the [u]
    flag: a Basic Latin letter of the pattern matches its two cases only. *)
Fixpoint startsWithIgnoreCase (p s : jsstring) : bool :=
  match p, s with
  | [], _ => true
  | a :: p', b :: s' =>
      (lowerBasicLatin a =? lowerBasicLatin b)%N && startsWithIgnoreCase p' s'
  | _ :: _, [] => false
  end.

(** [value.replace(/&/g, ..)...]: the five replacements of [escapeHtml]
    in one pass; the ampersand goes first in the source, so the entities
    the later replacements write are not escaped again. *)
Definition escapeUnit (c : N) : jsstring :=
  if (c =? 38)%N then lit "&amp;"
  else if (c =? 60)%N then lit "&lt;"
  else if (c =? 62)%N then lit "&gt;"
  else if (c =? 34)%N then lit "&quot;"
  else if (c =? 39)%N then lit "&#39;"
  else [c].

End Js.

Import Js.

(** How a call ends: with a value, or by throwing. *)
Inductive Completion (A : Type) :=
  | Normal (a : A)
  | Throw.
Arguments Normal {A} a.
Arguments Throw {A}.

(** ** Property reads on object literals

    [CODE_LANGUAGE_ALIASES] is an object literal, so a read
    [CODE_LANGUAGE_ALIASES[key]] that finds no own property goes on to
    [Object.prototype]. *)

Inductive Builtin :=
  | ObjectFunction                       (* Object.prototype.constructor *)
  | ObjectPrototype                      (* the __proto__ accessor's result *)
  | PrototypeMethod (name : jsstring).   (* hasOwnProperty, toString, ... *)

Inductive JsValue :=
  | VUndefined
  | VString (s : jsstring)
  | VBuiltin (b : Builtin).

Definition prototypeMethods : list jsstring :=
  [ lit "hasOwnProperty"; lit "isPrototypeOf"; lit "propertyIsEnumerable";
    lit "toLocaleString"; lit "toString"; lit "valueOf";
    lit "__defineGetter__"; lit "__defineSetter__";
    lit "__lookupGetter__"; lit "__lookupSetter__" ].

Definition objectPrototypeGet (key : jsstring) : option Builtin :=
  if decide (key = lit "constructor") then Some ObjectFunction
  else if decide (key = lit "__proto__") then Some ObjectPrototype
  else if decide (key ∈ prototypeMethods) then Some (PrototypeMethod key)
  else None.

(** [record[key]] for an object literal with string values. *)
Definition recordGet (own : gmap jsstring jsstring) (key : jsstring) : JsValue :=
  match own !! key with
  | Some v => VString v
  | None =>
      match objectPrototypeGet key with
      | Some b => VBuiltin b
      | None => VUndefined
      end
  end.

(** [v ?? d]; null does not occur in this module. *)
Definition nullish (v d : JsValue) : JsValue :=
  match v with
  | VUndefined => d
  | _ => v
  end.

(** ** Language resolver *)

Definition CODE_LANGUAGE_ALIASES : gmap jsstring jsstring :=
  list_to_map
    [ (lit "js", lit "javascript"); (lit "jsx", lit "javascript");
      (lit "ts", lit "typescript"); (lit "tsx", lit "typescript");
      (lit "sh", lit "bash"); (lit "shell", lit "bash");
      (lit "bash", lit "bash"); (lit "zsh", lit "bash");
      (lit "py", lit "python"); (lit "plaintext", lit "plaintext");
      (lit "text", lit "plaintext"); (lit "jsonc", lit "json") ].

Section LanguageResolver.

Variable unicodeLower : jsstring → jsstring.

(** [normalizeLanguage(value)]; [None] stands for null and undefined. *)
Definition normalizeLanguage (value : option jsstring) : JsValue :=
  let base := toLowerCase unicodeLower (trim (default [] value)) in
  if decide (base = []) then VString (lit "plaintext")
  else
    let firstToken :=
      match splitWhiteSpace base with
      | firstTokenRaw :: _ => firstTokenRaw
      | [] => base
      end in
    nullish (recordGet CODE_LANGUAGE_ALIASES firstToken) (VString firstToken).

End LanguageResolver.

Definition LANGUAGE_LABELS : gmap jsstring jsstring :=
  list_to_map
    [ (lit "javascript", lit "JavaScript"); (lit "typescript", lit "TypeScript");
      (lit "bash", lit "Bash"); (lit "python", lit "Python");
      (lit "html", lit "HTML"); (lit "css", lit "CSS"); (lit "json", lit "JSON");
      (lit "sql", lit "SQL"); (lit "yaml", lit "YAML");
      (lit "markdown", lit "Markdown"); (lit "plaintext", lit "Plain Text") ].

(** [if (value)]: the empty string and [undefined] are falsy. *)
Definition truthy (v : JsValue) : bool :=
  match v with
  | VUndefined => false
  | VString s => negb (bool_decide (s = []))
  | VBuiltin _ => true
  end.

(** [\w] without the [u] flag. *)
Definition isWordChar (c : N) : bool :=
  ((65 <=? c) && (c <=? 90) || (97 <=? c) && (c <=? 122)
   || (48 <=? c) && (c <=? 57) || (c =? 95))%N.

Definition upperBasicLatin (c : N) : N :=
  if ((97 <=? c) && (c <=? 122))%N then (c - 32)%N else c.

(** [s.replace(/[-_]+/g, ' ')]; [inRun]: the previous unit was a hyphen or
    an underscore. *)
Fixpoint replaceSeparators (inRun : bool) (s : jsstring) : jsstring :=
  match s with
  | [] => []
  | c :: s' =>
      if ((c =? 45) || (c =? 95))%N then
        if inRun then replaceSeparators true s'
        else 32%N :: replaceSeparators true s'
      else c :: replaceSeparators false s'
  end.

(** [s.replace(/\b\w/g, (match) => match.toUpperCase())]: the first unit of
    every run of word characters; [inWord]: the previous unit was one. *)
Fixpoint capitalizeWords (inWord : bool) (s : jsstring) : jsstring :=
  match s with
  | [] => []
  | c :: s' =>
      if isWordChar c then
        (if inWord then c else upperBasicLatin c) :: capitalizeWords true s'
      else c :: capitalizeWords false s'
  end.

(** [getLanguageLabel(language)].  Its parameter is declared a string; the
    resolver can hand it one of the objects of [Object.prototype], which has
    no [replace] to call. *)
Definition getLanguageLabel (language : JsValue) : Completion JsValue :=
  match language with
  | VString l =>
      let preset := recordGet LANGUAGE_LABELS l in
      if truthy preset then Normal preset
      else
        let formatted := capitalizeWords false (replaceSeparators false l) in
        let fallback :=
          nullish (recordGet LANGUAGE_LABELS (lit "plaintext"))
            (VString (lit "Plain Text")) in
        Normal (if decide (0 < length formatted) then VString formatted
                else fallback)
  | VUndefined | VBuiltin _ => Throw
  end.

(** ** Highlighter adapter *)

Section HighlighterAdapter.

(** [hljs.getLanguage(language)] is truthy: a grammar is registered under
    that name. *)
Variable getLanguage : jsstring → bool.
(** [hljs.highlight(source, { language, ignoreIllegals: true }).value]. *)
Variable highlight : jsstring → jsstring → Completion jsstring.

(** [None] is the source's [null]. *)
Definition getHighlightedCode (source language : jsstring) : option jsstring :=
  if decide (source = []) then None
  else if decide (language = [] ∨ language = lit "plaintext") then None
  else if negb (getLanguage language) then None
  else
    match highlight source language with
    | Normal value => Some value
    | Throw => None
    end.

End HighlighterAdapter.

(** ** Image renderer *)

Definition DQ : N := 34.

(** ["${value}"] inside a template literal. *)
Definition quoted (value : jsstring) : jsstring := DQ :: value ++ [DQ].

Definition escapeHtml (value : jsstring) : jsstring := value ≫= escapeUnit.

(** The three fields [renderImage] reads; [None] is a field that is not a
    string (the source tests [typeof ... === 'string']). *)
Record ImageToken := {
  href : option jsstring;
  text : option jsstring;
  title : option jsstring;
}.

Definition imageAttributes (token : ImageToken) : list jsstring :=
  let source := from_option trim [] (href token) in
  let altText := default [] (text token) in
  let titleText := default [] (title token) in
  let classes := [lit "markdown-image"] in
  let attributes :=
    [ lit "src=" ++ quoted (escapeHtml source);
      lit "alt=" ++ quoted (escapeHtml altText) ] in
  let attributes :=
    if decide (titleText = []) then attributes
    else attributes ++ [lit "title=" ++ quoted (escapeHtml titleText)] in
  attributes ++
    [ lit "loading=" ++ quoted (lit "lazy");
      lit "decoding=" ++ quoted (lit "async");
      lit "referrerpolicy=" ++ quoted (lit "no-referrer");
      lit "fetchpriority=" ++ quoted (lit "auto");
      lit "class=" ++ quoted (join (lit " ") classes) ].

Definition renderImage (token : ImageToken) : jsstring :=
  lit "<img " ++ join (lit " ") (imageAttributes token) ++ lit ">".

(** The image renderer as section 4.4 of the specification words it: [src],
    [alt] and [title] all trimmed.  Kept apart from [renderImage], to be
    compared with it. *)
Definition renderImage_spec (token : ImageToken) : jsstring :=
  let source := from_option trim [] (href token) in
  let altText := from_option trim [] (text token) in
  let titleText := from_option trim [] (title token) in
  lit "<img " ++
  join (lit " ")
    ([ lit "src=" ++ quoted (escapeHtml source);
       lit "alt=" ++ quoted (escapeHtml altText) ] ++
     (if decide (titleText = []) then []
      else [lit "title=" ++ quoted (escapeHtml titleText)]) ++
     [ lit "loading=" ++ quoted (lit "lazy");
       lit "decoding=" ++ quoted (lit "async");
       lit "referrerpolicy=" ++ quoted (lit "no-referrer");
       lit "fetchpriority=" ++ quoted (lit "auto");
       lit "class=" ++ quoted (lit "markdown-image") ]) ++
  lit ">".

(** ** Definition-list extension *)

Definition SPACE : N := 32.
Definition COLON : N := 58.

Fixpoint leadingSpaces (s : jsstring) : nat :=
  match s with
  | c :: s' => if (c =? SPACE)%N then S (leadingSpaces s') else 0
  | [] => 0
  end.

Fixpoint leadingNewlines (s : jsstring) : nat :=
  match s with
  | c :: s' => if (c =? LF)%N then S (leadingNewlines s') else 0
  | [] => 0
  end.

(** [[^\n]*] at the head of [s]. *)
Fixpoint lineOf (s : jsstring) : jsstring :=
  match s with
  | c :: s' => if (c =? LF)%N then [] else c :: lineOf s'
  | [] => []
  end.

(** [.*] at the head of [s]. *)
Fixpoint dotRun (s : jsstring) : jsstring :=
  match s with
  | c :: s' => if isLineTerminator c then [] else c :: dotRun s'
  | [] => []
  end.

(** The term pattern applied to [slice]: up to three spaces, one character
    that is neither a colon nor white space, the rest of the line (these form
    the first group), then a line feed or the end of the input.  The result
    is the first group and the length of the whole match.  The greedy
    [ {0,3}] takes [min 3 (leadingSpaces slice)] spaces; giving one back
    leaves a space under the lookahead, so nothing is gained by
    backtracking. *)
Definition matchTerm (slice : jsstring) : option (jsstring * nat) :=
  match drop (Nat.min (leadingSpaces slice) 3) slice with
  | c :: _ =>
      if negb (c =? COLON)%N && negb (isWhiteSpace c) then
        let line := lineOf slice in
        match drop (length line) slice with
        | [] => Some (line, length line)
        | _ :: _ => Some (line, S (length line))
        end
      else None
  | [] => None
  end.

(** The definition pattern applied to [ddSlice]: up to three spaces, a
    colon, one [\s], a run of [.] (these form the first group), then a line
    feed or the end of the input.  [\s] takes any white space, a line feed
    included; the run of [.] stops at the first line terminator, and the
    match needs a line feed or the end of the input there. *)
Definition matchDefinition (ddSlice : jsstring) : option (jsstring * nat) :=
  let k := leadingSpaces ddSlice in
  if decide (k ≤ 3) then
    match drop k ddSlice with
    | c :: w :: rest =>
        if (c =? COLON)%N && isWhiteSpace w then
          let n := k + 2 + length (dotRun rest) in
          match drop n ddSlice with
          | [] => Some (take n ddSlice, n)
          | d :: _ => if (d =? LF)%N then Some (take n ddSlice, S n) else None
          end
        else None
    | _ => None
    end
  else None.

(** [content.replace(/^\s*:\s?/, '')]. *)
Definition stripMarker (content : jsstring) : jsstring :=
  match trimStart content with
  | c :: rest =>
      if (c =? COLON)%N then
        match rest with
        | w :: rest' => if isWhiteSpace w then rest' else rest
        | [] => []
        end
      else content
  | [] => content
  end.

Section DefinitionList.

(** The inline token sequences of [marked], and the two routines of its
    lexer and parser the extension calls. *)
Variable TokenList : Type.
Variable inlineTokens : jsstring → TokenList.
Variable parseInline : TokenList → jsstring.

Record DefinitionListItem := {
  term : TokenList;
  descriptions : list TokenList;
}.

Record DefinitionListToken := {
  raw : jsstring;
  items : list DefinitionListItem;
}.

(** The inner [while] of the tokenizer: state [position], [descriptions],
    [hasDefinition]. *)
Fixpoint definitionLoop (fuel : nat) (src : jsstring) (position : nat)
    (descs : list TokenList) (hasDefinition : bool)
  : nat * list TokenList * bool :=
  match fuel with
  | 0 => (position, descs, hasDefinition)
  | S fuel' =>
      if decide (position < length src) then
        match matchDefinition (drop position src) with
        | None => (position, descs, hasDefinition)
        | Some (group1, len) =>
            let definitionContent := stripMarker group1 in
            definitionLoop fuel' src (position + len)
              (descs ++ [inlineTokens (trim definitionContent)]) true
        end
      else (position, descs, hasDefinition)
  end.

(** The outer [while]: state [items], [position], [lastPosition]. *)
Fixpoint itemLoop (fuel : nat) (src : jsstring)
    (its : list DefinitionListItem) (position lastPosition : nat)
  : list DefinitionListItem * nat * nat :=
  match fuel with
  | 0 => (its, position, lastPosition)
  | S fuel' =>
      if decide (position < length src) then
        let slice := drop position src in
        if bool_decide (slice = []) || startsWith [LF; LF] slice then
          (its, position, lastPosition)
        else
          let termStart := position in
          match matchTerm slice with
          | None => (its, position, lastPosition)
          | Some (termContent, len) =>
              let '(position, descs, hasDefinition) :=
                definitionLoop (length src) src (position + len) [] false in
              if negb hasDefinition then (its, termStart, lastPosition)
              else
                let its :=
                  its ++ [{| term := inlineTokens (trim termContent);
                             descriptions := descs |}] in
                let position :=
                  position + leadingNewlines (drop position src) in
                let lastPosition := position in
                if negb (bool_decide (is_Some (matchTerm (drop position src))))
                then (its, position, lastPosition)
                else itemLoop fuel' src its position lastPosition
          end
      else (its, position, lastPosition)
  end.

(** What is left of the tokenizer once the loop has run. *)
Definition tokenOf (src : jsstring)
    (st : list DefinitionListItem * nat * nat) : option DefinitionListToken :=
  let '(its, position, lastPosition) := st in
  match its with
  | [] => None
  | _ :: _ =>
      let consumed :=
        if decide (0 < lastPosition) then lastPosition else position in
      Some {| raw := take consumed src; items := its |}
  end.

Definition tokenizerWith (fuel : nat) (src : jsstring)
  : option DefinitionListToken :=
  tokenOf src (itemLoop fuel src [] 0 0).

(** [definitionListExtension.tokenizer(src)]; [None] is [undefined].  Every
    turn of the loop moves [position] forward, so [length src] turns are
    enough (see [tokenizerWith_enough]). *)
Definition tokenizer (src : jsstring) : option DefinitionListToken :=
  tokenizerWith (length src) src.

(** [definitionListExtension.renderer(token)]. *)
Definition renderer (token : DefinitionListToken) : jsstring :=
  let parts :=
    [lit "<dl>"] ++
    (items token ≫= λ item,
       (lit "<dt>" ++ parseInline (term item) ++ lit "</dt>") ::
       ((λ description,
           lit "<dd>" ++ parseInline description ++ lit "</dd>")
          <$> descriptions item)) ++
    [lit "</dl>"] in
  join [] parts.

End DefinitionList.

Arguments term {TokenList} _.
Arguments descriptions {TokenList} _.
Arguments raw {TokenList} _.
Arguments items {TokenList} _.
Arguments definitionLoop {TokenList} inlineTokens fuel src position descs hasDefinition.
Arguments itemLoop {TokenList} inlineTokens fuel src its position lastPosition.
Arguments tokenOf {TokenList} src st.
Arguments tokenizerWith {TokenList} inlineTokens fuel src.
Arguments tokenizer {TokenList} inlineTokens src.
Arguments renderer {TokenList} parseInline token.

(** ** Entry point *)

(** What [renderMarkdown] may be handed at run time: its declared type is
    [string | null | undefined]; [InOther] is any other value. *)
Inductive JsInput :=
  | InNull
  | InUndefined
  | InString (s : jsstring)
  | InOther.

(** The calls that leave the module.  Tokenization, the renderer overrides
    and with them highlighting all run inside [markdown.parse]. *)
Inductive Call :=
  | CallParse (source : jsstring)
  | CallSanitize (html : jsstring).

(** A computation that records the calls it makes and may end in a throw. *)
Definition Eff (A : Type) : Type := list Call * Completion A.

Definition ret {A} (a : A) : Eff A := ([], Normal a).

Definition bind {A B} (m : Eff A) (k : A → Eff B) : Eff B :=
  match m with
  | (calls, Throw) => (calls, Throw)
  | (calls, Normal a) => let '(calls', r) := k a in (calls ++ calls', r)
  end.

Definition call {A} (c : Call) (result : Completion A) : Eff A := ([c], result).

Notation "x ←' m ; k" := (bind m (λ x, k))
  (at level 20, m at level 100, k at level 200, only parsing).

Section EntryPoint.

(** [markdown.parse(source)]: a string ([Some]), a value that is not a
    string ([None]; the declared type admits a promise), or a throw. *)
Variable parse : jsstring → Completion (option jsstring).
(** [sanitizeHtml(html, policy)] with the policy of the module. *)
Variable sanitizeHtml : jsstring → Completion jsstring.

Definition renderMarkdown (input : JsInput) : Eff jsstring :=
  let source := match input with InString s => s | _ => [] end in
  if decide (trim source = []) then ret []
  else
    parsed ←' call (CallParse source) (parse source);
    let html := default [] parsed in
    call (CallSanitize html) (sanitizeHtml html).

End EntryPoint.

(** ** Sanitize policy *)

(** The attributes of a tag as the sanitizer hands them to a transform: an
    object whose keys are the attribute names, in insertion order. *)
Abbreviation Attributes := (list (jsstring * jsstring)).

(** [attribs[name]]; [None] is [undefined]. *)
Fixpoint attrGet (attribs : Attributes) (name : jsstring) : option jsstring :=
  match attribs with
  | (k, v) :: rest => if decide (k = name) then Some v else attrGet rest name
  | [] => None
  end.

(** [attribs[name] = value]: in place when the key exists, at the end
    otherwise. *)
Fixpoint attrSet (attribs : Attributes) (name value : jsstring) : Attributes :=
  match attribs with
  | (k, v) :: rest =>
      if decide (k = name) then (k, value) :: rest
      else (k, v) :: attrSet rest name value
  | [] => [(name, value)]
  end.

(** [set.add(x)] on a [Set], kept as the list of its elements in insertion
    order; [new Set(xs)]. *)
Definition setAdd (set : list jsstring) (x : jsstring) : list jsstring :=
  if decide (x ∈ set) then set else set ++ [x].

Definition newSet (xs : list jsstring) : list jsstring := foldl setAdd [] xs.

(** [/^https?:\/\//i.test(href)]. *)
Definition isExternal (href : jsstring) : bool :=
  startsWithIgnoreCase (lit "http://") href
  || startsWithIgnoreCase (lit "https://") href.

(** [rel.split(/\s+/).map((token) => token.trim()).filter(Boolean)]. *)
Definition relTokens (rel : jsstring) : list jsstring :=
  List.filter (λ token, negb (bool_decide (token = [])))
    (trim <$> splitWhiteSpace rel).

(** A token: not empty, no white space inside. *)
Definition isToken (token : jsstring) : Prop :=
  token ≠ [] ∧ forallb (λ c, negb (isWhiteSpace c)) token = true.

(** The set [transformTags.a] builds from the [rel] of an absolute link. *)
Definition relSetOf (rel : jsstring) : list jsstring :=
  setAdd (setAdd (newSet (relTokens rel)) (lit "noopener")) (lit "noreferrer").

(** [transformTags.a]. *)
Definition transformAnchor (tagName : jsstring) (attribs : Attributes)
  : jsstring * Attributes :=
  let href := default [] (attrGet attribs (lit "href")) in
  let nextAttribs := attribs in
  if isExternal href then
    let relSet := newSet (relTokens (default [] (attrGet attribs (lit "rel")))) in
    let relSet := setAdd relSet (lit "noopener") in
    let relSet := setAdd relSet (lit "noreferrer") in
    let nextAttribs := attrSet nextAttribs (lit "rel") (join (lit " ") relSet) in
    if decide (default [] (attrGet nextAttribs (lit "target")) = []) then
      (tagName, attrSet nextAttribs (lit "target") (lit "_blank"))
    else (tagName, nextAttribs)
  else (tagName, nextAttribs).

Definition addedTags : list jsstring :=
  [ lit "h1"; lit "h2"; lit "h3"; lit "h4"; lit "h5"; lit "h6"; lit "img";
    lit "pre"; lit "code"; lit "blockquote"; lit "hr"; lit "table";
    lit "thead"; lit "tbody"; lit "tr"; lit "th"; lit "td"; lit "figure";
    lit "figcaption"; lit "span"; lit "button"; lit "dl"; lit "dt"; lit "dd";
    lit "del"; lit "s"; lit "details"; lit "summary" ].

Definition ownAllowedAttributes : gmap jsstring (list jsstring) :=
  list_to_map
    [ (lit "a", [lit "href"; lit "name"; lit "target"; lit "rel"; lit "title"]);
      (lit "img",
        [ lit "src"; lit "alt"; lit "title"; lit "width"; lit "height";
          lit "class"; lit "loading"; lit "decoding"; lit "referrerpolicy";
          lit "fetchpriority"; lit "srcset"; lit "sizes" ]);
      (lit "figure", [lit "class"; lit "data-language"]);
      (lit "figcaption", [lit "class"]);
      (lit "pre", [lit "class"]);
      (lit "code", [lit "class"; lit "data-language"]);
      (lit "span", [lit "class"; lit "aria-hidden"; lit "data-checked"]);
      (lit "button", [lit "type"; lit "class"; lit "data-action"; lit "data-state"]);
      (lit "ul", [lit "class"]);
      (lit "li", [lit "class"]) ].

Definition allowedSchemes : list jsstring :=
  [lit "http"; lit "https"; lit "mailto"].

Definition allowedSchemesByTag : gmap jsstring (list jsstring) :=
  {[ lit "img" := [lit "http"; lit "https"; lit "data"] ]}.

(** ** Sanitizer *)

(** Modelled from the spec: a rendered fragment as the sanitizer sees it
    once it has parsed it again (section 4.5): text and elements.  The
    parser and the serializer of sanitize-html are not in the repository. *)
#[warnings="-register-all"]
Inductive Node :=
  | Text (data : jsstring)
  | Element (tagName : jsstring) (attribs : Attributes) (children : list Node).

Definition isAlpha (c : N) : bool :=
  ((65 <=? c) && (c <=? 90) || (97 <=? c) && (c <=? 122))%N.

Definition isSchemeChar (c : N) : bool :=
  (isAlpha c || (48 <=? c) && (c <=? 57) || (c =? 46) || (c =? 45) || (c =? 43))%N.

(** The scheme characters of [s] up to its first colon, when nothing else
    comes before that colon. *)
Fixpoint schemeTail (s : jsstring) : option jsstring :=
  match s with
  | c :: s' =>
      if (c =? COLON)%N then Some []
      else if isSchemeChar c then (c ::.) <$> schemeTail s'
      else None
  | [] => None
  end.

(** Modelled from the spec: the scheme a URL value "uses" (section 4.5);
    the sanitize-html library, which reads it, is a dependency and not in
    the repository.  Read as a browser does: characters up to U+0020 are
    ignored, a scheme is a letter followed by letters, digits, [+], [-] and
    [.] up to a colon, and case does not count.  [None]: the value is
    relative. *)
Definition schemeOf (value : jsstring) : option jsstring :=
  match List.filter (λ c, (32 <? c)%N) value with
  | c :: rest =>
      if isAlpha c then (λ tail, lowerBasicLatin <$> c :: tail) <$> schemeTail rest
      else None
  | [] => None
  end.

Section Sanitizer.

(** [sanitizeHtml.defaults.allowedTags] and
    [sanitizeHtml.defaults.allowedAttributes]: constants of the library. *)
Variable defaultAllowedTags : list jsstring.
Variable defaultAllowedAttributes : gmap jsstring (list jsstring).
(** Which tags outside the allow list leave their content behind when
    they are dropped ("tag removed, not necessarily its text"). *)
Variable keepsContent : jsstring → bool.

(** [Array.from(new Set([...sanitizeHtml.defaults.allowedTags, 'h1', ...]))]. *)
Definition allowedTags : list jsstring :=
  newSet (defaultAllowedTags ++ addedTags).

(** [{ ...sanitizeHtml.defaults.allowedAttributes, a: [...], ... }]: the
    keys written in the module win. *)
Definition allowedAttributes : gmap jsstring (list jsstring) :=
  ownAllowedAttributes ∪ defaultAllowedAttributes.

Definition schemesFor (tagName : jsstring) : list jsstring :=
  default allowedSchemes (allowedSchemesByTag !! tagName).

(** Modelled from the spec: "href/src values using a scheme outside the
    allowed set are dropped" (section 4.5); the check itself is inside
    sanitize-html. *)
Definition naughtyHref (tagName value : jsstring) : bool :=
  match schemeOf value with
  | Some scheme => negb (bool_decide (scheme ∈ schemesFor tagName))
  | None => false
  end.

(** Modelled from the spec: "any attribute not allowed for its tag is
    dropped", together with the scheme rule (section 4.5). *)
Definition keepAttribute (tagName : jsstring) (kv : jsstring * jsstring) : bool :=
  bool_decide (kv.1 ∈ default [] (allowedAttributes !! tagName))
  && negb (bool_decide (kv.1 ∈ [lit "href"; lit "src"]) && naughtyHref tagName kv.2).

(** [transformTags]: the one entry of the policy, for [a]. *)
Definition transformTag (tagName : jsstring) (attribs : Attributes)
  : jsstring * Attributes :=
  if decide (tagName = lit "a") then transformAnchor tagName attribs
  else (tagName, attribs).

(** Modelled from the spec: the walk of sanitize-html over the parsed
    fragment (section 4.5), with the policy and the transform of the
    module.  An element goes through the transform of its tag, then the
    tag allow list, then the attribute and scheme filter; an element whose
    tag is not allowed is dropped and, by [keepsContent], replaced by what
    is left of its children. *)
Fixpoint sanitizeNode (node : Node) : list Node :=
  match node with
  | Text data => [Text data]
  | Element tagName attribs children =>
      let '(tagName, attribs) := transformTag tagName attribs in
      let kept :=
        (fix each (nodes : list Node) : list Node :=
           match nodes with
           | [] => []
           | child :: rest => sanitizeNode child ++ each rest
           end) children in
      if bool_decide (tagName ∈ allowedTags) then
        [Element tagName (List.filter (keepAttribute tagName) attribs) kept]
      else if keepsContent tagName then kept
      else []
  end.

(** Modelled from the spec: [sanitize(html)] of section 4.5, on the parsed
    fragment. *)
Definition sanitize (fragment : list Node) : list Node :=
  fragment ≫= sanitizeNode.

End Sanitizer.

(** Every element of a fragment, at any depth, as its tag and attributes. *)
Fixpoint elementsOf (node : Node) : list (jsstring * Attributes) :=
  match node with
  | Text _ => []
  | Element tagName attribs children =>
      (tagName, attribs) ::
      (fix each (nodes : list Node) : list (jsstring * Attributes) :=
         match nodes with
         | [] => []
         | child :: rest => elementsOf child ++ each rest
         end) children
  end.

(** A fragment as a parser yields it: no element has two attributes of one
    name (the attributes of an element are the keys of an object). *)
Fixpoint wellFormed (node : Node) : Prop :=
  match node with
  | Text _ => True
  | Element _ attribs children =>
      NoDup attribs.*1 ∧
      (fix each (nodes : list Node) : Prop :=
         match nodes with
         | [] => True
         | child :: rest => wellFormed child ∧ each rest
         end) children
  end.

(** ** Escaping, step by step *)

(** [value.replace(/c/g, replacement)] for a pattern of one character. *)
Definition replaceAll (c : N) (replacement value : jsstring) : jsstring :=
  value ≫= λ x, if (x =? c)%N then replacement else [x].

(** [escapeHtml(value)] as the source writes it: five replacements, one
    after the other. *)
Definition escapeHtmlChain (value : jsstring) : jsstring :=
  replaceAll 39 (lit "&#39;")
    (replaceAll 34 (lit "&quot;")
       (replaceAll 62 (lit "&gt;")
          (replaceAll 60 (lit "&lt;")
             (replaceAll 38 (lit "&amp;") value)))).

(** [escapeHtml(value)] on whatever value arrives: a value without a
    [replace] method makes the call throw. *)
Definition escapeHtmlValue (value : JsValue) : Completion jsstring :=
  match value with
  | VString s => Normal (escapeHtml s)
  | VUndefined | VBuiltin _ => Throw
  end.

(** ** Code renderer *)

Module Code.

(** The two fields [renderCode] reads: [text], [None] when it is not a
    string, and [lang], [None] when it is undefined. *)
Record Token := {
  text : option jsstring;
  lang : option jsstring;
}.

End Code.

(** A canonical language: a non-empty Basic Latin word without capitals. *)
Definition isCanonicalUnit (c : N) : bool :=
  isBasicLatin c && negb (isWhiteSpace c) && negb ((65 <=? c) && (c <=? 90))%N.

Definition isCanonical (language : jsstring) : Prop :=
  language ≠ [] ∧ forallb isCanonicalUnit language = true.

(** The values of [CODE_LANGUAGE_ALIASES]. *)
Definition aliasTargets : list jsstring :=
  [ lit "javascript"; lit "typescript"; lit "bash"; lit "python";
    lit "plaintext"; lit "json" ].

Section CodeRenderer.

Variable unicodeLower : jsstring → jsstring.
Variable getLanguage : jsstring → bool.
Variable highlight : jsstring → jsstring → Completion jsstring.

(** [renderer.code].  The label is computed before anything else is done
    with [language], so a language that is not a string never gets past
    [getLanguageLabel]. *)
Definition renderCode (token : Code.Token) : Completion jsstring :=
  let source := default [] (Code.text token) in
  let language := normalizeLanguage unicodeLower (Code.lang token) in
  match getLanguageLabel language with
  | Throw => Throw
  | Normal labelValue =>
      match escapeHtmlValue labelValue, language with
      | Normal label, VString language =>
          let languageAttribute := escapeHtml language in
          let highlighted :=
            getHighlightedCode getLanguage highlight source language in
          let codeClasses :=
            if decide (language = []) then [lit "hljs"]
            else [lit "hljs"; lit "language-" ++ language] in
          let classAttribute :=
            lit " class=" ++ quoted (join (lit " ") (escapeHtml <$> codeClasses)) in
          let dataAttribute := lit " data-language=" ++ quoted languageAttribute in
          let codeContent := default (escapeHtml source) highlighted in
          Normal
            (join []
               [ lit "<figure class=" ++ quoted (lit "code-block") ++
                 lit " data-language=" ++ quoted languageAttribute ++ lit ">";
                 lit "<figcaption class=" ++ quoted (lit "code-block__header") ++
                 lit "><span class=" ++ quoted (lit "code-block__lang") ++ lit ">" ++
                 label ++
                 lit "</span><button type=" ++ quoted (lit "button") ++
                 lit " class=" ++ quoted (lit "code-block__copy") ++
                 lit " data-action=" ++ quoted (lit "copy-code") ++
                 lit ">copiar</button></figcaption>";
                 lit "<pre class=" ++ quoted (lit "code-block__body") ++
                 lit "><code" ++ classAttribute ++ dataAttribute ++ lit ">" ++
                 codeContent ++ lit "</code></pre>";
                 lit "</figure>" ])
      | _, _ => Throw
      end
  end.

End CodeRenderer.

(** ** Where a definition list may start *)

(** The pattern of [start] at the head of [s]: a term line, its line feed,
    up to three spaces, a colon and at least one [\\s]. *)
Definition startPattern (s : jsstring) : bool :=
  match drop (Nat.min (leadingSpaces s) 3) s with
  | c :: _ =>
      negb (c =? COLON)%N && negb (isWhiteSpace c) &&
      match drop (length (lineOf s)) s with
      | _ :: next =>
          let k := leadingSpaces next in
          bool_decide (k ≤ 3) &&
          match drop k next with
          | c' :: w :: _ => (c' =? COLON)%N && isWhiteSpace w
          | _ => false
          end
      | [] => false
      end
  | [] => false
  end.

(** The search of [src.match(/^.../m)]: the first index at which a line
    begins ([lineStart]: the unit before is a line terminator, or there is
    none) and the pattern matches. *)
Fixpoint startScan (lineStart : bool) (index : nat) (s : jsstring) : option nat :=
  if lineStart && startPattern s then Some index
  else
    match s with
    | [] => None
    | c :: s' => startScan (isLineTerminator c) (S index) s'
    end.

(** [definitionListExtension.start(src)]; [None] is [undefined]. *)
Definition start (src : jsstring) : option nat := startScan true 0 src.

(** ** Image file names *)

Definition IMAGE_EXTENSIONS : list jsstring :=
  [ lit "apng"; lit "avif"; lit "bmp"; lit "cur"; lit "gif"; lit "ico";
    lit "jfif"; lit "jpeg"; lit "jpg"; lit "pjpeg"; lit "pjp"; lit "png";
    lit "svg"; lit "tif"; lit "tiff"; lit "webp" ].

(** [value.split(/[?#]/)[0]]: what comes before the first [?] or [#]. *)
Fixpoint beforeQuery (value : jsstring) : jsstring :=
  match value with
  | c :: value' =>
      if ((c =? 63) || (c =? 35))%N then [] else c :: beforeQuery value'
  | [] => []
  end.

(** [s.lastIndexOf(c)]; [None] is -1. *)
Fixpoint lastIndexOf (c : N) (s : jsstring) : option nat :=
  match s with
  | [] => None
  | x :: s' =>
      match lastIndexOf c s' with
      | Some i => Some (S i)
      | None => if (x =? c)%N then Some 0 else None
      end
  end.

Section ImageNames.

Variable unicodeLower : jsstring → jsstring.

(** [hasImageExtension(value)]. *)
Definition hasImageExtension (value : jsstring) : bool :=
  let normalized := beforeQuery value in
  match lastIndexOf 46 normalized with
  | None => false
  | Some dotIndex =>
      let extension :=
        toLowerCase unicodeLower (drop (dotIndex + 1) normalized) in
      bool_decide (extension ∈ IMAGE_EXTENSIONS)
  end.

End ImageNames.

(** ** Reading and writing a fragment *)

(** Modelled from the spec: what the sanitizer reads when it "re-parses
    the renderer's HTML output" (section 4.5), before it builds elements
    from it: opening tags with their attributes, closing tags and text.
    The parser of sanitize-html is a dependency and not in the
    repository. *)
Inductive Markup :=
  | OpenTag (name : jsstring) (attribs : Attributes)
  | CloseTag (name : jsstring)
  | Chars (data : jsstring).

(** The white space of HTML: tab, line feed, form feed, carriage return
    and space. *)
Definition isHtmlSpace (c : N) : bool :=
  ((c =? 9) || (c =? 10) || (c =? 12) || (c =? 13) || (c =? 32))%N.

(** Modelled from the spec: the character references the writer below
    produces, with the character each stands for and its length. *)
Definition characterReference (s : jsstring) : option (N * nat) :=
  if startsWith (lit "&amp;") s then Some (38%N, 5)
  else if startsWith (lit "&lt;") s then Some (60%N, 4)
  else if startsWith (lit "&gt;") s then Some (62%N, 4)
  else if startsWith (lit "&quot;") s then Some (34%N, 6)
  else None.

(** Text and attribute values with their character references replaced;
    [skip] counts the units of a reference that are still to be passed
    over. *)
Fixpoint decodeFrom (skip : nat) (s : jsstring) : jsstring :=
  match s with
  | [] => []
  | c :: rest =>
      match skip with
      | S skip' => decodeFrom skip' rest
      | 0 =>
          match characterReference s with
          | Some (decoded, size) => decoded :: decodeFrom (size - 1) rest
          | None => c :: decodeFrom 0 rest
          end
      end
  end.

Definition decode (s : jsstring) : jsstring := decodeFrom 0 s.

(** Where the reader is inside a fragment. *)
Inductive Reading :=
  | InText (data : jsstring)
  | AfterLt (data : jsstring)
  | AfterLtSlash (data : jsstring)
  | InOpenName (name : jsstring)
  | InTag (name : jsstring) (attribs : Attributes)
  | InAttrName (name : jsstring) (attribs : Attributes) (attr : jsstring)
  | AfterEquals (name : jsstring) (attribs : Attributes) (attr : jsstring)
  | InQuoted (name : jsstring) (attribs : Attributes) (attr value : jsstring)
  | InUnquoted (name : jsstring) (attribs : Attributes) (attr value : jsstring)
  | InCloseName (name : jsstring)
  | AfterCloseName (name : jsstring).

(** The text read so far, if there is any. *)
Definition chars (data : jsstring) : list Markup :=
  if decide (data = []) then [] else [Chars (decode data)].

(** An attribute written twice keeps its first value: the attributes of a
    tag are the keys of an object. *)
Definition addAttribute (attribs : Attributes) (attr value : jsstring)
  : Attributes :=
  let name := lowerBasicLatin <$> attr in
  if bool_decide (name ∈ attribs.*1) then attribs
  else attribs ++ [(name, decode value)].

(** Modelled from the spec: the reading of one more code unit.  Tags are
    read as the writer below writes them and as the renderers of the
    module do: [<name attr="value" attr>], [</name>], text in between,
    names without regard to case.  Comments, declarations, quoting with
    an apostrophe, the raw text of [script] and [style] and the other
    character references are the business of the library's tokenizer and
    are not modelled; they are read as text or as part of a value. *)
Definition readUnit (state : Reading) (c : N) : list Markup * Reading :=
  match state with
  | InText data =>
      if (c =? 60)%N then ([], AfterLt data) else ([], InText (data ++ [c]))
  | AfterLt data =>
      if isAlpha c then (chars data, InOpenName [c])
      else if (c =? 47)%N then ([], AfterLtSlash data)
      else if (c =? 60)%N then ([], AfterLt (data ++ [60%N]))
      else ([], InText (data ++ [60%N; c]))
  | AfterLtSlash data =>
      if isAlpha c then (chars data, InCloseName [c])
      else ([], InText (data ++ [60%N; 47%N; c]))
  | InOpenName name =>
      if (c =? 62)%N then ([OpenTag (lowerBasicLatin <$> name) []], InText [])
      else if isHtmlSpace c || (c =? 47)%N then
        ([], InTag (lowerBasicLatin <$> name) [])
      else ([], InOpenName (name ++ [c]))
  | InTag name attribs =>
      if (c =? 62)%N then ([OpenTag name attribs], InText [])
      else if isHtmlSpace c || (c =? 47)%N then ([], InTag name attribs)
      else ([], InAttrName name attribs [c])
  | InAttrName name attribs attr =>
      if (c =? 61)%N then ([], AfterEquals name attribs attr)
      else if (c =? 62)%N then
        ([OpenTag name (addAttribute attribs attr [])], InText [])
      else if isHtmlSpace c || (c =? 47)%N then
        ([], InTag name (addAttribute attribs attr []))
      else ([], InAttrName name attribs (attr ++ [c]))
  | AfterEquals name attribs attr =>
      if (c =? 34)%N then ([], InQuoted name attribs attr [])
      else if (c =? 62)%N then
        ([OpenTag name (addAttribute attribs attr [])], InText [])
      else if isHtmlSpace c then ([], AfterEquals name attribs attr)
      else ([], InUnquoted name attribs attr [c])
  | InQuoted name attribs attr value =>
      if (c =? 34)%N then ([], InTag name (addAttribute attribs attr value))
      else ([], InQuoted name attribs attr (value ++ [c]))
  | InUnquoted name attribs attr value =>
      if (c =? 62)%N then
        ([OpenTag name (addAttribute attribs attr value)], InText [])
      else if isHtmlSpace c then
        ([], InTag name (addAttribute attribs attr value))
      else ([], InUnquoted name attribs attr (value ++ [c]))
  | InCloseName name =>
      if (c =? 62)%N then ([CloseTag (lowerBasicLatin <$> name)], InText [])
      else if isHtmlSpace c then ([], AfterCloseName name)
      else ([], InCloseName (name ++ [c]))
  | AfterCloseName name =>
      if (c =? 62)%N then ([CloseTag (lowerBasicLatin <$> name)], InText [])
      else ([], AfterCloseName name)
  end.

(** At the end of the fragment text is kept and a tag that was not
    finished is dropped. *)
Definition readEnd (state : Reading) : list Markup :=
  match state with
  | InText data => chars data
  | AfterLt data => chars (data ++ [60%N])
  | AfterLtSlash data => chars (data ++ [60%N; 47%N])
  | _ => []
  end.

Fixpoint readUnits (state : Reading) (html : jsstring) : list Markup :=
  match html with
  | [] => readEnd state
  | c :: rest =>
      let '(markup, state) := readUnit state c in
      markup ++ readUnits state rest
  end.

Definition readMarkup (html : jsstring) : list Markup :=
  readUnits (InText []) html.

(** Modelled from the spec: the elements that have no content and no end
    tag in HTML, as the parser of the library lists them. *)
Definition voidElements : list jsstring :=
  [ lit "area"; lit "base"; lit "basefont"; lit "br"; lit "col";
    lit "command"; lit "embed"; lit "frame"; lit "hr"; lit "img";
    lit "input"; lit "isindex"; lit "keygen"; lit "link"; lit "meta";
    lit "param"; lit "source"; lit "track"; lit "wbr" ].

(** Modelled from the spec: the end tags HTML lets an author leave out,
    as the parser of the library has them: the tag that opens, and the
    open elements it closes when one of them is the innermost. *)
Definition openImpliesClose : gmap jsstring (list jsstring) :=
  let formTags :=
    [ lit "input"; lit "option"; lit "optgroup"; lit "select";
      lit "button"; lit "datalist"; lit "textarea" ] in
  let pTag := [lit "p"] in
  let tableSectionTags := [lit "thead"; lit "tbody"] in
  let ddtTags := [lit "dd"; lit "dt"] in
  let rtpTags := [lit "rt"; lit "rp"] in
  list_to_map
    [ (lit "tr", [lit "tr"; lit "th"; lit "td"]);
      (lit "th", [lit "th"]);
      (lit "td", [lit "thead"; lit "th"; lit "td"]);
      (lit "body", [lit "head"; lit "link"; lit "script"]);
      (lit "li", [lit "li"]);
      (lit "p", pTag);
      (lit "h1", pTag); (lit "h2", pTag); (lit "h3", pTag);
      (lit "h4", pTag); (lit "h5", pTag); (lit "h6", pTag);
      (lit "select", formTags); (lit "input", formTags);
      (lit "output", formTags); (lit "button", formTags);
      (lit "datalist", formTags); (lit "textarea", formTags);
      (lit "option", [lit "option"]);
      (lit "optgroup", [lit "optgroup"; lit "option"]);
      (lit "dd", ddtTags); (lit "dt", ddtTags);
      (lit "address", pTag); (lit "article", pTag); (lit "aside", pTag);
      (lit "blockquote", pTag); (lit "details", pTag); (lit "div", pTag);
      (lit "dl", pTag); (lit "fieldset", pTag); (lit "figcaption", pTag);
      (lit "figure", pTag); (lit "footer", pTag); (lit "form", pTag);
      (lit "header", pTag); (lit "hr", pTag); (lit "main", pTag);
      (lit "nav", pTag); (lit "ol", pTag); (lit "pre", pTag);
      (lit "section", pTag); (lit "table", pTag); (lit "ul", pTag);
      (lit "rt", rtpTags); (lit "rp", rtpTags);
      (lit "tbody", tableSectionTags); (lit "tfoot", tableSectionTags) ].

Definition impliesClose (opening name : jsstring) : bool :=
  bool_decide (name ∈ default [] (openImpliesClose !! opening)).

(** An element that has been opened and not closed yet, with the
    children it has so far. *)
Record OpenElement := {
  openName : jsstring;
  openAttribs : Attributes;
  openChildren : list Node;
}.

(** [nodes] become the last children of the innermost open element, or
    the last nodes of the fragment when no element is open. *)
Definition appendNodes (nodes : list Node)
    (stack : list OpenElement) (done : list Node)
  : list OpenElement * list Node :=
  match stack with
  | top :: below =>
      ({| openName := openName top; openAttribs := openAttribs top;
          openChildren := openChildren top ++ nodes |} :: below, done)
  | [] => ([], done ++ nodes)
  end.

(** Close the open elements from the innermost outwards for as long as
    [closes] holds of their names.  [inner] is what the elements closed
    so far have become. *)
Fixpoint closeWhile (closes : jsstring → bool) (inner : list Node)
    (stack : list OpenElement) (done : list Node)
  : list OpenElement * list Node :=
  match stack with
  | top :: below =>
      if closes (openName top) then
        closeWhile closes
          [Element (openName top) (openAttribs top) (openChildren top ++ inner)]
          below done
      else appendNodes inner stack done
  | [] => ([], done ++ inner)
  end.

(** Close the open elements from the innermost outwards up to the first
    one called [name], that one included. *)
Fixpoint closeThrough (name : jsstring) (inner : list Node)
    (stack : list OpenElement) (done : list Node)
  : list OpenElement * list Node :=
  match stack with
  | top :: below =>
      let element :=
        Element (openName top) (openAttribs top) (openChildren top ++ inner) in
      if decide (openName top = name) then appendNodes [element] below done
      else closeThrough name [element] below done
  | [] => ([], done ++ inner)
  end.

(** Modelled from the spec: what one tag or text adds to the tree the
    parser builds.  An opening tag first closes the open elements whose
    end tag it implies, and stays open unless it is void; a closing tag
    closes the innermost element of its name and all that is open inside
    it, and is ignored when there is none, but for [</p>] and [</br>],
    which stand for an empty [p] and for [br]. *)
Definition buildStep (state : list OpenElement * list Node) (markup : Markup)
  : list OpenElement * list Node :=
  let '(stack, done) := state in
  match markup with
  | Chars data => appendNodes [Text data] stack done
  | OpenTag name attribs =>
      let '(stack, done) := closeWhile (impliesClose name) [] stack done in
      if bool_decide (name ∈ voidElements) then
        appendNodes [Element name attribs []] stack done
      else
        ({| openName := name; openAttribs := attribs; openChildren := [] |}
           :: stack, done)
  | CloseTag name =>
      if bool_decide (name ∈ voidElements) then
        if decide (name = lit "br") then
          appendNodes [Element name [] []] stack done
        else (stack, done)
      else if bool_decide (name ∈ openName <$> stack) then
        closeThrough name [] stack done
      else if decide (name = lit "p") then
        appendNodes [Element name [] []] stack done
      else (stack, done)
  end.

(** Modelled from the spec: the tree of a fragment; whatever is still
    open at its end is closed there. *)
Definition buildTree (markup : list Markup) : list Node :=
  let '(stack, done) := foldl buildStep ([], []) markup in
  (closeWhile (λ _, true) [] stack done).2.

(** Modelled from the spec: "re-parses the renderer's HTML output"
    (section 4.5). *)
Definition parseHtml (html : jsstring) : list Node :=
  buildTree (readMarkup html).

(** Modelled from the spec: the escaping of the writer of sanitize-html,
    in text and, with the quotation mark, in attribute values. *)
Definition writeEscaped (quote : bool) (s : jsstring) : jsstring :=
  let s :=
    replaceAll 62 (lit "&gt;")
      (replaceAll 60 (lit "&lt;") (replaceAll 38 (lit "&amp;") s)) in
  if quote then replaceAll 34 (lit "&quot;") s else s.

(** Modelled from the spec: the tags the writer of sanitize-html closes
    in the opening tag itself. *)
Definition selfClosing : list jsstring :=
  [ lit "img"; lit "br"; lit "hr"; lit "area"; lit "base"; lit "basefont";
    lit "input"; lit "link"; lit "meta" ].

(** Modelled from the spec: an attribute as the writer of sanitize-html
    writes it; an empty value is left out, but for [alt]. *)
Definition writeAttribute (attribute : jsstring * jsstring) : jsstring :=
  let '(name, value) := attribute in
  lit " " ++ name ++
  if decide (value = []) then
    if decide (name = lit "alt") then lit "=" ++ quoted [] else []
  else lit "=" ++ quoted (writeEscaped true value).

(** Modelled from the spec: the HTML text of a sanitized node, as
    sanitize-html writes it. *)
Fixpoint writeNode (node : Node) : jsstring :=
  match node with
  | Text data => writeEscaped false data
  | Element tagName attribs children =>
      lit "<" ++ tagName ++ (attribs ≫= writeAttribute) ++
      if bool_decide (tagName ∈ selfClosing) then lit " />"
      else
        lit ">" ++
        (fix each (nodes : list Node) : jsstring :=
           match nodes with
           | [] => []
           | child :: rest => writeNode child ++ each rest
           end) children ++
        lit "</" ++ tagName ++ lit ">"
  end.

(** Modelled from the spec: the string the sanitizer returns for a
    fragment. *)
Definition writeHtml (fragment : list Node) : jsstring :=
  fragment ≫= writeNode.

(** A text in front of [rest]: two texts that meet read as one. *)
Definition joinText (node : Node) (rest : list Node) : list Node :=
  match node, rest with
  | Text data, Text data' :: rest' => Text (data ++ data') :: rest'
  | _, _ => node :: rest
  end.

(** A fragment as it is read back from its own HTML text: texts that
    stand next to each other are one text. *)
Fixpoint joinNode (node : Node) : Node :=
  match node with
  | Text data => Text data
  | Element tagName attribs children =>
      Element tagName attribs
        ((fix each (nodes : list Node) : list Node :=
            match nodes with
            | [] => []
            | child :: rest => joinText (joinNode child) (each rest)
            end) children)
  end.

Definition joinTexts (fragment : list Node) : list Node :=
  foldr (λ node, joinText (joinNode node)) [] fragment.

(** No attribute twice in the tag that is being read. *)
Definition readingWellFormed (state : Reading) : Prop :=
  match state with
  | InTag _ attribs | InAttrName _ attribs _ | AfterEquals _ attribs _
  | InQuoted _ attribs _ _ | InUnquoted _ attribs _ _ => NoDup attribs.*1
  | _ => True
  end.

(** No attribute twice in a tag that has been read. *)
Definition markupWellFormed (markup : Markup) : Prop :=
  match markup with
  | OpenTag _ attribs => NoDup attribs.*1
  | _ => True
  end.

(** No attribute twice in an element that is open, nor in its children. *)
Definition openWellFormed (element : OpenElement) : Prop :=
  NoDup (openAttribs element).*1 ∧ Forall wellFormed (openChildren element).

Section SanitizeHtml.

(** The parser and the writer of sanitize-html, whatever they are. *)
Variable read : jsstring → list Node.
Variable write : list Node → jsstring.
Variable defaultAllowedTags : list jsstring.
Variable defaultAllowedAttributes : gmap jsstring (list jsstring).
Variable keepsContent : jsstring → bool.

(** Modelled from the spec: [sanitize(html)] of section 4.5, from string
    to string: the fragment is parsed, filtered and written again. *)
Definition sanitizeHtmlWith (html : jsstring) : jsstring :=
  write (sanitize defaultAllowedTags defaultAllowedAttributes keepsContent
           (read html)).

(** A node on which the sanitizer finds nothing to do: its tag is
    allowed, the transform and the attribute filter leave its attributes
    as they are, and so for its children. *)
Fixpoint settled (node : Node) : Prop :=
  match node with
  | Text _ => True
  | Element tagName attribs children =>
      tagName ∈ allowedTags defaultAllowedTags ∧
      transformTag tagName attribs = (tagName, attribs) ∧
      List.filter (keepAttribute defaultAllowedAttributes tagName) attribs
      = attribs ∧
      (fix each (nodes : list Node) : Prop :=
         match nodes with
         | [] => True
         | child :: rest => settled child ∧ each rest
         end) children
  end.

End SanitizeHtml.

(** ** Sample data *)

(** [Term], [: First def] and [: Second def] on three lines. *)
Definition sampleDefinitionList : jsstring :=
  lit "Term" ++ [LF] ++ lit ": First def" ++ [LF] ++ lit ": Second def".


(** A paragraph with an absolute link that carries a [rel] and a handler,
    a script link, a script element and an inline image. *)
Definition sampleFragment : list Node :=
  [ Element (lit "p") []
      [ Text (lit "x");
        Element (lit "a")
          [ (lit "href", lit "HTTPS://x.y");
            (lit "rel", lit " nofollow  noopener nofollow ");
            (lit "onclick", lit "e") ]
          [Text (lit "t")];
        Element (lit "a") [(lit "href", lit "javascript:alert(1)")] [Text (lit "t")];
        Element (lit "script") [] [Text (lit "t")];
        Element (lit "img")
          [(lit "src", lit "data:image/png;base64,xx"); (lit "alt", lit "")] [] ] ].

(** What the sanitizer makes of [sampleFragment]. *)
Definition sampleSanitized : list Node :=
  [ Element (lit "p") []
      [ Text (lit "x");
        Element (lit "a")
          [ (lit "href", lit "HTTPS://x.y");
            (lit "rel", lit "nofollow noopener noreferrer");
            (lit "target", lit "_blank") ]
          [Text (lit "t")];
        Element (lit "a") [] [Text (lit "t")];
        Element (lit "img")
          [(lit "src", lit "data:image/png;base64,xx"); (lit "alt", lit "")] [] ] ].

(** [<p>a<x>b</x><a href="https://x.y">t</a></p>]. *)
Definition sampleHtml : jsstring :=
  lit "<p>a<x>b</x><a href=" ++ quoted (lit "https://x.y") ++ lit ">t</a></p>".

(** * Properties *)

(** ** Strings *)

Lemma trimStart_blank s : forallb isWhiteSpace s = true → trimStart s = [].
Proof.
  induction s as [|c s IH]; simpl; [done|].
  intros [Hc Hs]%andb_true_iff. rewrite Hc. auto.
Qed.

Lemma trim_blank s : forallb isWhiteSpace s = true → trim s = [].
Proof. intros H. unfold trim. by rewrite trimStart_blank. Qed.

Lemma trimStart_head c s : isWhiteSpace c = false → trimStart (c :: s) = c :: s.
Proof. intros H. simpl. by rewrite H. Qed.

(** A string without white space is its own trimmed form. *)
Lemma trimStart_solid s :
  forallb (λ c, negb (isWhiteSpace c)) s = true → trimStart s = s.
Proof.
  destruct s as [|c s]; simpl; [done|].
  intros [Hc _]%andb_true_iff. by apply negb_true_iff in Hc as ->.
Qed.

Lemma forallb_reverse {A} (p : A → bool) l :
  forallb p (reverse l) = forallb p l.
Proof.
  induction l as [|x l IH]; [done|].
  rewrite reverse_cons forallb_app IH. simpl. rewrite andb_true_r. apply andb_comm.
Qed.

Lemma trim_solid s :
  forallb (λ c, negb (isWhiteSpace c)) s = true → trim s = s.
Proof.
  intros H. unfold trim, trimEnd. rewrite (trimStart_solid s H).
  rewrite trimStart_solid; [apply reverse_involutive|].
  by rewrite forallb_reverse.
Qed.

Lemma splitAux_solid s :
  forallb (λ c, negb (isWhiteSpace c)) s = true → splitAux false s = [s].
Proof.
  induction s as [|c s IH]; simpl; [done|].
  intros [Hc Hs]%andb_true_iff. apply negb_true_iff in Hc. by rewrite Hc IH.
Qed.

Lemma lowerBasicLatin_whiteSpace c :
  isWhiteSpace (lowerBasicLatin c) = isWhiteSpace c.
Proof.
  unfold lowerBasicLatin.
  destruct ((65 <=? c)%N && (c <=? 90)%N) eqn:Hu; [|done].
  apply andb_true_iff in Hu as [H1%N.leb_le H2%N.leb_le].
  unfold isWhiteSpace.
  repeat match goal with
  | |- context [(?a <=? ?b)%N] => destruct (N.leb_spec a b); [|try lia]
  | |- context [(?a =? ?b)%N] => destruct (N.eqb_spec a b); [try lia|]
  end; try lia; reflexivity.
Qed.

(** ** Language resolver *)

Section LanguageResolverProperties.

Variable unicodeLower : jsstring → jsstring.

Lemma normalizeLanguage_absent :
  normalizeLanguage unicodeLower None = VString (lit "plaintext").
Proof. reflexivity. Qed.

(** The empty string and every string of white space resolve to
    [plaintext]. *)
Lemma normalizeLanguage_blank s :
  forallb isWhiteSpace s = true →
  normalizeLanguage unicodeLower (Some s) = VString (lit "plaintext").
Proof. intros H. unfold normalizeLanguage. simpl. by rewrite trim_blank. Qed.

Example normalizeLanguage_TS :
  normalizeLanguage unicodeLower (Some (lit "TS")) = VString (lit "typescript").
Proof. vm_compute. reflexivity. Qed.

Example normalizeLanguage_tsx :
  normalizeLanguage unicodeLower (Some (lit "tsx")) = VString (lit "typescript").
Proof. vm_compute. reflexivity. Qed.

(** Only the first token counts, and its case does not. *)
Example normalizeLanguage_first_token :
  normalizeLanguage unicodeLower (Some (lit "  Tsx  {1,3} title=x "))
  = VString (lit "typescript").
Proof. vm_compute. reflexivity. Qed.

(** A Basic Latin tag without white space that is neither an alias nor a
    property of [Object.prototype] resolves to itself, in lower case. *)
Lemma normalizeLanguage_unknown tag :
  tag ≠ [] →
  forallb (λ c, isBasicLatin c && negb (isWhiteSpace c)) tag = true →
  CODE_LANGUAGE_ALIASES !! (lowerBasicLatin <$> tag) = None →
  objectPrototypeGet (lowerBasicLatin <$> tag) = None →
  normalizeLanguage unicodeLower (Some tag)
  = VString (lowerBasicLatin <$> tag).
Proof.
  intros Hne Hall Halias Hproto.
  assert (Hlatin : forallb isBasicLatin tag = true).
  { rewrite forallb_forall in Hall. apply forallb_forall. intros c Hc.
    by destruct (andb_prop _ _ (Hall c Hc)). }
  assert (Hsolid : forallb (λ c, negb (isWhiteSpace c)) tag = true).
  { rewrite forallb_forall in Hall. apply forallb_forall. intros c Hc.
    by destruct (andb_prop _ _ (Hall c Hc)). }
  assert (Hlow : forallb (λ c, negb (isWhiteSpace c)) (lowerBasicLatin <$> tag) = true).
  { apply forallb_forall. intros c [d [<- Hd]]%in_map_iff.
    rewrite forallb_forall in Hall. destruct (andb_prop _ _ (Hall d Hd)) as [H1 H2].
    by rewrite lowerBasicLatin_whiteSpace. }
  unfold normalizeLanguage, toLowerCase. simpl.
  rewrite (trim_solid tag Hsolid) Hlatin.
  destruct (decide _) as [Hnil|_].
  { destruct tag; [done | discriminate Hnil]. }
  unfold splitWhiteSpace. rewrite (splitAux_solid _ Hlow).
  unfold recordGet. by rewrite Halias Hproto.
Qed.

Example normalizeLanguage_rust :
  normalizeLanguage unicodeLower (Some (lit "Rust")) = VString (lit "rust").
Proof. by apply normalizeLanguage_unknown. Qed.

(** C7, at the tag [constructor]: the tag is not in the alias table, yet
    the resolver does not answer with the tag itself.  The read of the
    alias object finds the property every object inherits and the resolver
    returns that function, which is not a string at all. *)
Theorem normalizeLanguage_constructor :
  CODE_LANGUAGE_ALIASES !! lit "constructor" = None ∧
  normalizeLanguage unicodeLower (Some (lit "constructor"))
  = VBuiltin ObjectFunction ∧
  normalizeLanguage unicodeLower (Some (lit "constructor"))
  ≠ VString (lit "constructor").
Proof. split; [|split]; [vm_compute; reflexivity ..|vm_compute; discriminate]. Qed.

(** The accessor [__proto__] is found the same way. *)
Example normalizeLanguage_proto :
  normalizeLanguage unicodeLower (Some (lit "__proto__"))
  = VBuiltin ObjectPrototype.
Proof. vm_compute. reflexivity. Qed.

(** The label routine, which the code renderer calls next, throws on
    that value: the code block is not rendered. *)
Example getLanguageLabel_constructor :
  getLanguageLabel (normalizeLanguage unicodeLower (Some (lit "constructor")))
  = Throw.
Proof. vm_compute. reflexivity. Qed.

Example getLanguageLabel_preset :
  getLanguageLabel (normalizeLanguage unicodeLower (Some (lit "ts")))
  = Normal (VString (lit "TypeScript")).
Proof. vm_compute. reflexivity. Qed.

Example getLanguageLabel_formatted :
  getLanguageLabel (normalizeLanguage unicodeLower (Some (lit "objective-c")))
  = Normal (VString (lit "Objective C")).
Proof. vm_compute. reflexivity. Qed.

End LanguageResolverProperties.

(** ** Highlighter adapter *)

Section HighlighterAdapterProperties.

Variable getLanguage : jsstring → bool.
Variable highlight : jsstring → jsstring → Completion jsstring.

(** C8: the adapter answers [null] exactly when the source is empty, the
    language is [plaintext], no grammar is registered for the language, or
    the highlighter throws; a throw never leaves the adapter.  No grammar
    is registered under the empty name, which is how the guard
    [!language] of the source falls under the third case. *)
Theorem getHighlightedCode_none source language :
  getLanguage [] = false →
  getHighlightedCode getLanguage highlight source language = None ↔
    source = [] ∨ language = lit "plaintext" ∨
    getLanguage language = false ∨ highlight source language = Throw.
Proof.
  intros Hempty. unfold getHighlightedCode.
  destruct (decide (source = [])) as [->|Hs]; [tauto|].
  destruct (decide _) as [[->| ->]|Hl]; [tauto..|].
  destruct (getLanguage language) eqn:Hg; simpl; [|tauto].
  destruct (highlight source language) eqn:Hh.
  - split; [discriminate|]. intros [?|[?|[?|?]]]; try done.
    exfalso. apply Hl. by right.
  - tauto.
Qed.

(** When the adapter answers with markup, it is the highlighter's. *)
Lemma getHighlightedCode_some source language value :
  getHighlightedCode getLanguage highlight source language = Some value →
  highlight source language = Normal value.
Proof.
  unfold getHighlightedCode. repeat case_decide; try discriminate.
  destruct (getLanguage language); simpl; [|discriminate].
  destruct (highlight source language); [|discriminate]. congruence.
Qed.

End HighlighterAdapterProperties.

Lemma getHighlightedCode_none_witness :
  bool_decide (([] : jsstring) = lit "javascript") = false ∧
  (getHighlightedCode (λ l, bool_decide (l = lit "javascript")) (λ _ _, Throw)
    (lit "x") (lit "javascript") = None ↔
  lit "x" = [] ∨ lit "javascript" = lit "plaintext" ∨
  bool_decide (lit "javascript" = lit "javascript") = false ∨
  (Throw : Completion jsstring) = Throw).
Proof.
  split; [reflexivity|].
  apply (getHighlightedCode_none (λ l, bool_decide (l = lit "javascript"))
           (λ _ _, Throw) (lit "x") (lit "javascript")).
  reflexivity.
Defined.

(** ** Image renderer *)

Lemma escapeUnit_no_quote c : DQ ∉ escapeUnit c.
Proof.
  unfold escapeUnit.
  repeat match goal with
  | |- context [(c =? ?b)%N] => destruct (N.eqb_spec c b)
  end; try (apply (bool_decide_unpack _); vm_compute; exact I).
  intros Hin%list_elem_of_singleton. unfold DQ in Hin. congruence.
Qed.

(** An escaped value holds no double quote: between the quotes of an
    attribute it is the whole value. *)
Lemma escapeHtml_no_quote value : DQ ∉ escapeHtml value.
Proof.
  unfold escapeHtml. intros (c & Hc & _)%list_elem_of_bind.
  by apply escapeUnit_no_quote in Hc.
Qed.

(** C9, as the specification words it, fails on an alternative text with
    white space around it: the renderer writes the text as it is. *)
Lemma renderImage_alt_not_trimmed :
  renderImage {| href := Some (lit "u"); text := Some (lit " a "); title := None |}
  ≠ renderImage_spec
      {| href := Some (lit "u"); text := Some (lit " a "); title := None |}.
Proof. vm_compute. discriminate. Qed.

(** C9, amended: the tag carries [src] with the trimmed and escaped [href],
    [alt] with the escaped text as it is, [title] with the escaped title as
    it is when the title is a non-empty string, then [loading], [decoding],
    [referrerpolicy], [fetchpriority] and [class] with fixed values, in that
    order; no quoted value breaks out of its quotes, and nothing else of
    the URL is looked at. *)
Theorem renderImage_shape token :
  let source := from_option trim [] (href token) in
  let altText := default [] (text token) in
  let titleText := default [] (title token) in
  (renderImage token =
    lit "<img src=" ++ quoted (escapeHtml source) ++
    lit " alt=" ++ quoted (escapeHtml altText) ++
    (if decide (titleText = []) then []
     else lit " title=" ++ quoted (escapeHtml titleText)) ++
    lit " loading=" ++ quoted (lit "lazy") ++
    lit " decoding=" ++ quoted (lit "async") ++
    lit " referrerpolicy=" ++ quoted (lit "no-referrer") ++
    lit " fetchpriority=" ++ quoted (lit "auto") ++
    lit " class=" ++ quoted (lit "markdown-image") ++ lit ">")
  ∧ (DQ ∉ escapeHtml source) ∧ (DQ ∉ escapeHtml altText)
  ∧ (DQ ∉ escapeHtml titleText).
Proof.
  intros source altText titleText.
  split; [|auto using escapeHtml_no_quote].
  unfold renderImage, imageAttributes. fold source altText titleText.
  destruct (decide (titleText = [])) as [_|_];
    cbn -[escapeHtml]; rewrite -?app_assoc; cbn -[escapeHtml];
    repeat (f_equal; rewrite -?app_assoc; cbn -[escapeHtml]); reflexivity.
Qed.

(** ** Entry point *)

Section EntryPointProperties.

Variable parse : jsstring → Completion (option jsstring).
Variable sanitizeHtml : jsstring → Completion jsstring.

(** C4: on the empty string and on any string of white space the entry
    point returns the empty string and calls neither the parser (inside
    which tokenization and highlighting happen) nor the sanitizer. *)
Theorem renderMarkdown_blank s :
  forallb isWhiteSpace s = true →
  renderMarkdown parse sanitizeHtml (InString s) = ([], Normal []).
Proof.
  intros H. unfold renderMarkdown. by rewrite (trim_blank s H).
Qed.

(** C10: null, undefined and any other value that is not a string are
    read as the empty source: the empty string comes back, nothing is
    called and nothing is thrown. *)
Theorem renderMarkdown_not_a_string :
  renderMarkdown parse sanitizeHtml InNull = ([], Normal []) ∧
  renderMarkdown parse sanitizeHtml InUndefined = ([], Normal []) ∧
  renderMarkdown parse sanitizeHtml InOther = ([], Normal []).
Proof. by repeat split. Qed.

(** On any other string both stages are called, in order, and a string
    the sanitizer returns is the result. *)
Lemma renderMarkdown_runs s html safe :
  trim s ≠ [] →
  parse s = Normal (Some html) →
  sanitizeHtml html = Normal safe →
  renderMarkdown parse sanitizeHtml (InString s)
  = ([CallParse s; CallSanitize html], Normal safe).
Proof.
  intros Hs Hp Hh. unfold renderMarkdown.
  destruct (decide (trim s = [])) as [|_]; [done|].
  unfold bind, call. by rewrite Hp /= Hh.
Qed.

End EntryPointProperties.

Lemma renderMarkdown_blank_witness :
  forallb isWhiteSpace [] = true ∧
  forallb isWhiteSpace (lit "   " ++ [LF]) = true ∧
  renderMarkdown (λ _, Throw) (λ _, Throw) (InString []) = ([], Normal []) ∧
  renderMarkdown (λ _, Throw) (λ _, Throw) (InString (lit "   " ++ [LF]))
  = ([], Normal []).
Proof.
  split; [reflexivity|]. split; [reflexivity|]. split.
  - apply (renderMarkdown_blank (λ _, Throw) (λ _, Throw) []). reflexivity.
  - apply (renderMarkdown_blank (λ _, Throw) (λ _, Throw) (lit "   " ++ [LF])).
    reflexivity.
Defined.

(** ** Definition-list extension *)

Lemma matchDefinition_progress s group1 len :
  matchDefinition s = Some (group1, len) → 0 < len.
Proof.
  unfold matchDefinition. case_decide; [|done].
  destruct (drop _ s) as [|c [|w rest]]; try done.
  destruct (_ && _); [|done].
  destruct (drop _ s) as [|d ?]; [|destruct (d =? LF)%N];
    intros [= <- <-] || done; lia.
Qed.

Lemma matchTerm_progress s termContent len :
  matchTerm s = Some (termContent, len) → 0 < len.
Proof.
  unfold matchTerm. destruct (drop (_ `min` _) s) eqn:Hd; [done|].
  destruct (_ && _); [|done].
  destruct (drop (length (lineOf s)) s) eqn:Hl; intros [= <- <-]; [|lia].
  destruct (lineOf s); [|simpl; lia].
  rewrite drop_0 in Hl. subst s. by rewrite drop_nil in Hd.
Qed.

(** A term never starts on a line feed, so a slice that matches the term
    pattern does not begin with a blank line. *)
Lemma matchTerm_not_blank s termContent len :
  matchTerm s = Some (termContent, len) → startsWith [LF; LF] s = false.
Proof.
  intros H. destruct s as [|c s]; [done|].
  cbn [startsWith]. destruct (N.eqb_spec LF c) as [<-|]; [|done].
  by vm_compute in H.
Qed.

Section DefinitionListProperties.

Variable TokenList : Type.
Variable inlineTokens : jsstring → TokenList.
Variable parseInline : TokenList → jsstring.

(** *** The loops run to their end *)

Lemma definitionLoop_enough src fuel fuel' position descs hasDefinition :
  length src - position ≤ fuel → fuel ≤ fuel' →
  definitionLoop inlineTokens fuel' src position descs hasDefinition
  = definitionLoop inlineTokens fuel src position descs hasDefinition.
Proof.
  revert fuel' position descs hasDefinition.
  induction fuel as [|fuel IH]; intros fuel' position descs hasDefinition Hm Hle.
  - destruct fuel'; simpl; [done|]. case_decide; [lia|done].
  - destruct fuel' as [|fuel']; [lia|]. simpl.
    case_decide; [|done].
    destruct (matchDefinition _) as [[group1 len]|] eqn:Hmd; [|done].
    apply matchDefinition_progress in Hmd. apply IH; lia.
Qed.

(** The bound the outer loop gives the inner one is enough as well. *)
Lemma definitionLoop_bound src fuel position descs hasDefinition :
  length src ≤ fuel →
  definitionLoop inlineTokens fuel src position descs hasDefinition
  = definitionLoop inlineTokens (length src) src position descs hasDefinition.
Proof. intros H. apply definitionLoop_enough; lia. Qed.

Lemma definitionLoop_position fuel src position descs hasDefinition :
  position ≤ (definitionLoop inlineTokens fuel src position descs hasDefinition).1.1.
Proof.
  revert position descs hasDefinition.
  induction fuel as [|fuel IH]; intros position descs hasDefinition; simpl; [done|].
  case_decide; [|done].
  destruct (matchDefinition _) as [[group1 len]|]; [|done].
  etrans; [|apply IH]. lia.
Qed.

Lemma itemLoop_enough src fuel fuel' its position lastPosition :
  length src - position ≤ fuel → fuel ≤ fuel' →
  itemLoop inlineTokens fuel' src its position lastPosition
  = itemLoop inlineTokens fuel src its position lastPosition.
Proof.
  revert fuel' its position lastPosition.
  induction fuel as [|fuel IH]; intros fuel' its position lastPosition Hm Hle.
  - destruct fuel'; simpl; [done|]. case_decide; [lia|done].
  - destruct fuel' as [|fuel']; [lia|]. simpl.
    case_decide; [|done].
    destruct (_ || _); [done|].
    destruct (matchTerm _) as [[termContent len]|] eqn:Hmt; [|done].
    apply matchTerm_progress in Hmt.
    pose proof (definitionLoop_position (length src) src (position + len) [] false) as Hpos.
    destruct (definitionLoop inlineTokens _ _ _ _ _) as [[position' descs] hasDefinition].
    simpl in Hpos. destruct hasDefinition; simpl; [|done].
    destruct (negb _); [done|]. apply IH; lia.
Qed.

(** More turns than the source has code units change nothing: the
    tokenizer is not cut short by its bound. *)
Lemma tokenizerWith_enough src fuel :
  length src ≤ fuel → tokenizerWith inlineTokens fuel src = tokenizer inlineTokens src.
Proof.
  intros H. unfold tokenizer, tokenizerWith.
  f_equal. apply itemLoop_enough; lia.
Qed.

(** *** No entry without a description *)




End DefinitionListProperties.

(** ** Sets of tokens *)

Lemma setAdd_elem set x y : y ∈ setAdd set x ↔ y ∈ set ∨ y = x.
Proof.
  unfold setAdd. case_decide as Hx.
  - split; [by left|]. by intros [?| ->].
  - by rewrite elem_of_app list_elem_of_singleton.
Qed.

Lemma setAdd_present set x : x ∈ set → setAdd set x = set.
Proof. intros H. unfold setAdd. by rewrite decide_True. Qed.

Lemma setAdd_NoDup set x : NoDup set → NoDup (setAdd set x).
Proof.
  intros H. unfold setAdd. case_decide as Hx; [done|].
  apply NoDup_app. split; [done|]. split; [|apply NoDup_singleton].
  by intros y Hy ->%list_elem_of_singleton.
Qed.

Lemma foldl_setAdd_elem acc xs y :
  y ∈ foldl setAdd acc xs ↔ y ∈ acc ∨ y ∈ xs.
Proof.
  revert acc. induction xs as [|x xs IH]; intros acc; simpl.
  - rewrite elem_of_nil. tauto.
  - rewrite IH setAdd_elem elem_of_cons. tauto.
Qed.

Lemma newSet_elem xs y : y ∈ newSet xs ↔ y ∈ xs.
Proof. unfold newSet. rewrite foldl_setAdd_elem elem_of_nil. tauto. Qed.

Lemma foldl_setAdd_NoDup acc xs : NoDup acc → NoDup (foldl setAdd acc xs).
Proof.
  revert acc. induction xs as [|x xs IH]; intros acc H; simpl; [done|].
  by apply IH, setAdd_NoDup.
Qed.

Lemma newSet_NoDup xs : NoDup (newSet xs).
Proof. apply foldl_setAdd_NoDup, NoDup_nil_2. Qed.

Lemma foldl_setAdd_fresh acc xs :
  NoDup (acc ++ xs) → foldl setAdd acc xs = acc ++ xs.
Proof.
  revert acc. induction xs as [|x xs IH]; intros acc H; simpl.
  - by rewrite app_nil_r.
  - assert (x ∉ acc) as Hx.
    { apply NoDup_app in H as (_ & H & _). intros Hin. apply (H x Hin). by left. }
    unfold setAdd. rewrite decide_False; [|done].
    rewrite IH -?app_assoc //.
Qed.

(** A set built from the elements of a set is that set. *)
Lemma newSet_fixed xs : NoDup xs → newSet xs = xs.
Proof. intros H. unfold newSet. by rewrite foldl_setAdd_fresh. Qed.

(** ** Splitting and joining *)

Lemma splitAux_pieces inSep s :
  Forall (λ piece, forallb (λ c, negb (isWhiteSpace c)) piece = true)
    (splitAux inSep s).
Proof.
  revert inSep. induction s as [|c s IH]; intros inSep; simpl.
  - by apply Forall_singleton.
  - destruct (isWhiteSpace c) eqn:Hc.
    + destruct inSep; [apply IH|]. constructor; [done|apply IH].
    + specialize (IH false). destruct (splitAux false s) as [|p ps].
      * apply Forall_singleton. simpl. by rewrite Hc.
      * inversion_clear IH. constructor; [|done]. simpl. by rewrite Hc.
Qed.

Lemma relTokens_tokens rel : Forall isToken (relTokens rel).
Proof.
  unfold relTokens. apply Forall_forall. intros token.
  rewrite list_elem_of_In filter_In -list_elem_of_In list_elem_of_fmap.
  intros [(piece & -> & Hin) Hne].
  pose proof (splitAux_pieces false rel) as Hall.
  rewrite Forall_forall in Hall. specialize (Hall piece Hin).
  rewrite trim_solid // in Hne |- *. split; [|done].
  intros ->. done.
Qed.

Lemma splitAux_token_start inSep c s :
  isWhiteSpace c = false → splitAux inSep (c :: s) = splitAux false (c :: s).
Proof. intros H. simpl. by rewrite H. Qed.

Lemma splitAux_app token rest :
  forallb (λ c, negb (isWhiteSpace c)) token = true →
  splitAux false (token ++ 32%N :: rest) = token :: splitAux true rest.
Proof.
  induction token as [|c token IH]; simpl; [done|].
  intros [Hc Ht]%andb_true_iff. apply negb_true_iff in Hc. by rewrite Hc IH.
Qed.

Lemma split_join tokens :
  tokens ≠ [] → Forall isToken tokens →
  splitWhiteSpace (join (lit " ") tokens) = tokens.
Proof.
  unfold splitWhiteSpace.
  induction tokens as [|token tokens IH]; [done|]. intros _ Hall.
  inversion_clear Hall as [|? ? [Hne Hsolid] Hrest].
  destruct tokens as [|token' tokens].
  - simpl. by apply splitAux_solid.
  - change (join (lit " ") (token :: token' :: tokens))
      with (token ++ 32%N :: join (lit " ") (token' :: tokens)).
    rewrite splitAux_app //. f_equal.
    specialize (IH ltac:(done) Hrest).
    inversion_clear Hrest as [|? ? [Hne' Hsolid'] _].
    destruct token' as [|c token']; [done|].
    simpl in Hsolid'. apply andb_true_iff in Hsolid' as [Hc%negb_true_iff _].
    assert (join (lit " ") ((c :: token') :: tokens)
            = c :: (match tokens with [] => token' | _ => token' ++ lit " " ++ join (lit " ") tokens end)) as Heq.
    { by destruct tokens. }
    rewrite Heq in IH |- *. by rewrite splitAux_token_start.
Qed.

Lemma relTokens_join tokens :
  tokens ≠ [] → Forall isToken tokens →
  relTokens (join (lit " ") tokens) = tokens.
Proof.
  intros Hne Hall. unfold relTokens. rewrite split_join //.
  clear Hne. induction Hall as [|token tokens [Hne Hsolid] _ IH]; [done|].
  csimpl. rewrite trim_solid //. rewrite bool_decide_eq_false_2 //=. by rewrite IH.
Qed.

(** ** Attributes *)

Lemma attrGet_attrSet attribs name value :
  attrGet (attrSet attribs name value) name = Some value.
Proof.
  induction attribs as [|[k v] attribs IH]; simpl.
  - by destruct (decide (name = name)).
  - destruct (decide (k = name)) as [Hk|Hk]; simpl.
    + by destruct (decide (k = name)).
    + by destruct (decide (k = name)).
Qed.

Lemma attrGet_attrSet_ne attribs name value name' :
  name ≠ name' →
  attrGet (attrSet attribs name value) name' = attrGet attribs name'.
Proof.
  intros Hne. induction attribs as [|[k v] attribs IH]; simpl.
  - by destruct (decide (name = name')).
  - destruct (decide (k = name)) as [Hk|Hk]; simpl.
    + subst k. by destruct (decide (name = name')).
    + by destruct (decide (k = name')).
Qed.

Lemma attrSet_same attribs name value :
  attrGet attribs name = Some value → attrSet attribs name value = attribs.
Proof.
  induction attribs as [|[k v] attribs IH]; simpl; [done|].
  case_decide; [by intros [= ->]|]. intros Hget. by rewrite IH.
Qed.

Lemma attrGet_elem attribs name value :
  attrGet attribs name = Some value → (name, value) ∈ attribs.
Proof.
  induction attribs as [|[k v] attribs IH]; simpl; [done|].
  case_decide; [intros [= ->]; subst; by left|]. intros Hget. right. by apply IH.
Qed.

Lemma attrGet_None attribs name :
  attrGet attribs name = None ↔ name ∉ attribs.*1.
Proof.
  induction attribs as [|[k v] attribs IH]; simpl.
  - split; [intros _; apply not_elem_of_nil|done].
  - rewrite not_elem_of_cons. case_decide; [split; [done|intros [? _]; by subst]|].
    rewrite IH. split; [by split|tauto].
Qed.

Lemma attrSet_keys attribs name value :
  (attrSet attribs name value).*1 =
    if decide (name ∈ attribs.*1) then attribs.*1 else attribs.*1 ++ [name].
Proof.
  induction attribs as [|[k v] attribs IH].
  - by destruct (decide (name ∈ ([] : Attributes).*1)) as [?%elem_of_nil|].
  - cbn [attrSet]. destruct (decide (k = name)) as [Hk|Hk].
    + subst. destruct (decide (name ∈ ((name, v) :: attribs).*1)) as [|Hn]; [done|].
      destruct Hn. by left.
    + rewrite fmap_cons IH.
      destruct (decide (name ∈ attribs.*1)) as [Hin|Hnin];
        destruct (decide (name ∈ ((k, v) :: attribs).*1)) as [Hin'|Hnin']; try done.
      * destruct Hnin'. by right.
      * apply elem_of_cons in Hin' as [?|?]; by subst.
Qed.

Lemma attrSet_NoDup attribs name value :
  NoDup attribs.*1 → NoDup (attrSet attribs name value).*1.
Proof.
  intros H. rewrite attrSet_keys. case_decide as Hin; [done|].
  apply NoDup_app. split; [done|]. split; [|apply NoDup_singleton].
  by intros y Hy ->%list_elem_of_singleton.
Qed.

Lemma filter_keys_sublist (p : jsstring * jsstring → bool) attribs :
  sublist (List.filter p attribs).*1 attribs.*1.
Proof.
  induction attribs as [|kv attribs IH]; simpl; [done|].
  destruct (p kv); simpl; by constructor.
Qed.

Lemma filter_NoDup (p : jsstring * jsstring → bool) attribs :
  NoDup attribs.*1 → NoDup (List.filter p attribs).*1.
Proof. intros H. by eapply sublist_NoDup; [|apply filter_keys_sublist]. Qed.

(** With one attribute per name, filtering decides each read on its own. *)
Lemma attrGet_filter (p : jsstring * jsstring → bool) attribs name :
  NoDup attribs.*1 →
  attrGet (List.filter p attribs) name =
    match attrGet attribs name with
    | Some value => if p (name, value) then Some value else None
    | None => None
    end.
Proof.
  induction attribs as [|[k v] attribs IH]; simpl; [done|].
  intros [Hk Hnd]%NoDup_cons. specialize (IH Hnd).
  case_decide as Heq.
  - subst k. destruct (p (name, v)) eqn:Hp; simpl.
    + by rewrite decide_True.
    + rewrite IH. apply attrGet_None in Hk. by rewrite Hk.
  - destruct (p (k, v)); simpl; [by rewrite decide_False|done].
Qed.

Lemma filter_filter (p : jsstring * jsstring → bool) attribs :
  List.filter p (List.filter p attribs) = List.filter p attribs.
Proof.
  induction attribs as [|kv attribs IH]; simpl; [done|].
  destruct (p kv) eqn:Hp; simpl; by rewrite ?Hp IH.
Qed.

(** ** Absolute links and their scheme *)

Lemma startsWithIgnoreCase_cons a p s :
  startsWithIgnoreCase (a :: p) s = true →
  ∃ b s', s = b :: s' ∧ (lowerBasicLatin a =? lowerBasicLatin b)%N = true
          ∧ startsWithIgnoreCase p s' = true.
Proof.
  destruct s as [|b s']; simpl; [done|].
  intros [H1 H2]%andb_true_iff. by exists b, s'.
Qed.

Lemma lowerBasicLatin_inv k c :
  (k =? lowerBasicLatin c)%N = true → c = k ∨ (c + 32 = k ∧ 65 ≤ c ≤ 90)%N.
Proof.
  intros H%N.eqb_eq. unfold lowerBasicLatin in H.
  destruct ((65 <=? c)%N && (c <=? 90)%N) eqn:Hu; [|by left].
  apply andb_true_iff in Hu as [H1%N.leb_le H2%N.leb_le]. right. lia.
Qed.

Ltac external_units H :=
  repeat match type of H with
  | startsWithIgnoreCase (?k :: _) _ = true =>
      let Hc := fresh "Hc" in
      let v := eval vm_compute in (lowerBasicLatin k) in
      apply startsWithIgnoreCase_cons in H as (? & ? & -> & Hc & H);
      change (lowerBasicLatin k) with v in Hc;
      apply lowerBasicLatin_inv in Hc as [->|[Hc ?]];
      [|first [exfalso; lia
              |apply N.add_sub_eq_r in Hc; simpl in Hc; subst]]
  end.

(** An absolute link uses the scheme [http] or [https]. *)
Lemma isExternal_scheme href :
  isExternal href = true →
  schemeOf href = Some (lit "http") ∨ schemeOf href = Some (lit "https").
Proof.
  unfold isExternal. intros [H|H]%orb_true_iff; [left|right].
  - change (lit "http://") with [104; 116; 116; 112; 58; 47; 47]%N in H.
    external_units H; reflexivity.
  - change (lit "https://") with [104; 116; 116; 112; 115; 58; 47; 47]%N in H.
    external_units H; reflexivity.
Qed.

Lemma isExternal_nonempty href : isExternal href = true → href ≠ [].
Proof. by intros H ->. Qed.

(** ** Anchor transform *)

Lemma noopener_token : isToken (lit "noopener").
Proof. by split. Qed.

Lemma noreferrer_token : isToken (lit "noreferrer").
Proof. by split. Qed.

Lemma setAdd_tokens set x :
  Forall isToken set → isToken x → Forall isToken (setAdd set x).
Proof.
  intros Hs Hx. unfold setAdd. case_decide; [done|].
  apply Forall_app. split; [done|]. by apply Forall_singleton.
Qed.

Lemma newSet_tokens xs : Forall isToken xs → Forall isToken (newSet xs).
Proof.
  rewrite !Forall_forall. intros H x Hx. apply H. by apply newSet_elem.
Qed.

Section RelSet.

Variable rel : jsstring.

Lemma relSet_tokens : Forall isToken (relSetOf rel).
Proof.
  apply setAdd_tokens; [apply setAdd_tokens|];
    auto using newSet_tokens, relTokens_tokens, noopener_token, noreferrer_token.
Qed.

Lemma relSet_NoDup : NoDup (relSetOf rel).
Proof. apply setAdd_NoDup, setAdd_NoDup, newSet_NoDup. Qed.

Lemma relSet_elem token :
  token ∈ (relSetOf rel) ↔
  token ∈ relTokens rel ∨ token = lit "noopener" ∨ token = lit "noreferrer".
Proof. unfold relSetOf. rewrite !setAdd_elem newSet_elem. tauto. Qed.

Lemma relSet_nonempty : (relSetOf rel) ≠ [].
Proof.
  intros H. assert (lit "noopener" ∈ (relSetOf rel)) as Hin by (apply relSet_elem; auto).
  rewrite H in Hin. by apply elem_of_nil in Hin.
Qed.

(** Reading the joined set back gives the set. *)
Lemma relSet_read : relTokens (join (lit " ") (relSetOf rel)) = (relSetOf rel).
Proof. apply relTokens_join; [apply relSet_nonempty|apply relSet_tokens]. Qed.

(** Building the set again from what was written changes nothing. *)
Lemma relSet_fixed : relSetOf (join (lit " ") (relSetOf rel)) = (relSetOf rel).
Proof.
  unfold relSetOf at 1. rewrite relSet_read (newSet_fixed _ relSet_NoDup).
  rewrite !setAdd_present //; apply relSet_elem; auto.
Qed.

End RelSet.

Lemma lit_target_rel : lit "target" ≠ lit "rel".
Proof. done. Qed.

Lemma lit_rel_target : lit "rel" ≠ lit "target".
Proof. done. Qed.

Section AnchorTransform.

Variable tagName : jsstring.
Variable attribs : Attributes.

Local Abbreviation linkHref := (default [] (attrGet attribs (lit "href"))).
Local Abbreviation linkRel := (default [] (attrGet attribs (lit "rel"))).
Local Abbreviation linkTarget := (default [] (attrGet attribs (lit "target"))).

Lemma transformAnchor_tagName : (transformAnchor tagName attribs).1 = tagName.
Proof.
  unfold transformAnchor. destruct (isExternal _); [|done]. by case_decide.
Qed.

(** A link that is not absolute goes through untouched. *)
Lemma transformAnchor_local :
  isExternal linkHref = false →
  transformAnchor tagName attribs = (tagName, attribs).
Proof. intros H. unfold transformAnchor. by rewrite H. Qed.

(** What the transform writes for an absolute link. *)
Lemma transformAnchor_external :
  isExternal linkHref = true →
  (transformAnchor tagName attribs).2 =
    if decide (linkTarget = []) then
      attrSet (attrSet attribs (lit "rel") (join (lit " ") (relSetOf linkRel)))
        (lit "target") (lit "_blank")
    else attrSet attribs (lit "rel") (join (lit " ") (relSetOf linkRel)).
Proof.
  intros H. unfold transformAnchor. rewrite H.
  rewrite (attrGet_attrSet_ne _ _ _ _ lit_rel_target). by case_decide.
Qed.

Lemma transformAnchor_rel :
  isExternal linkHref = true →
  attrGet (transformAnchor tagName attribs).2 (lit "rel")
  = Some (join (lit " ") (relSetOf linkRel)).
Proof.
  intros H. rewrite (transformAnchor_external H).
  case_decide.
  - by rewrite (attrGet_attrSet_ne _ _ _ _ lit_target_rel) attrGet_attrSet.
  - by rewrite attrGet_attrSet.
Qed.

Lemma transformAnchor_target :
  isExternal linkHref = true →
  attrGet (transformAnchor tagName attribs).2 (lit "target")
  = Some (if decide (linkTarget = []) then lit "_blank" else linkTarget).
Proof.
  intros H. rewrite (transformAnchor_external H).
  case_decide as Ht; [by rewrite attrGet_attrSet|].
  rewrite (attrGet_attrSet_ne _ _ _ _ lit_rel_target).
  by destruct (attrGet attribs (lit "target")).
Qed.

Lemma transformAnchor_other name :
  name ≠ lit "rel" → name ≠ lit "target" →
  attrGet (transformAnchor tagName attribs).2 name = attrGet attribs name.
Proof.
  intros Hr Ht. unfold transformAnchor. destruct (isExternal _); [|done].
  case_decide; simpl.
  - rewrite attrGet_attrSet_ne; [|done]. by rewrite attrGet_attrSet_ne.
  - by rewrite attrGet_attrSet_ne.
Qed.

Lemma transformAnchor_NoDup :
  NoDup attribs.*1 → NoDup (transformAnchor tagName attribs).2.*1.
Proof.
  intros H. unfold transformAnchor. destruct (isExternal _); [|done].
  case_decide; simpl; auto using attrSet_NoDup.
Qed.

End AnchorTransform.

(** ** Sanitizer *)

(** Induction over a fragment, children included. *)
Lemma Node_induction (P : Node → Prop) :
  (∀ data, P (Text data)) →
  (∀ tagName attribs children,
     Forall P children → P (Element tagName attribs children)) →
  ∀ node, P node.
Proof.
  intros HText HElement. fix IH 1. intros [data|tagName attribs children].
  - apply HText.
  - apply HElement. induction children as [|child children IHc]; constructor.
    + apply IH.
    + apply IHc.
Qed.

Lemma elementsOf_Element tagName attribs children :
  elementsOf (Element tagName attribs children)
  = (tagName, attribs) :: (children ≫= elementsOf).
Proof.
  reflexivity.
Qed.

Lemma wellFormed_Element tagName attribs children :
  wellFormed (Element tagName attribs children)
  ↔ NoDup attribs.*1 ∧ Forall wellFormed children.
Proof.
  simpl. apply and_iff_compat_l.
  induction children as [|child children IH]; [by split|].
  rewrite Forall_cons IH. done.
Qed.

Lemma schemesFor_img :
  schemesFor (lit "img") = [lit "http"; lit "https"; lit "data"].
Proof. reflexivity. Qed.

Lemma schemesFor_other tagName :
  tagName ≠ lit "img" → schemesFor tagName = allowedSchemes.
Proof.
  intros H. unfold schemesFor, allowedSchemesByTag.
  by rewrite lookup_singleton_ne.
Qed.

Section SanitizerProperties.

Variable defaultAllowedTags : list jsstring.
Variable defaultAllowedAttributes : gmap jsstring (list jsstring).
Variable keepsContent : jsstring → bool.

Local Abbreviation keeps := (keepAttribute defaultAllowedAttributes).
Local Abbreviation cleanNode :=
  (sanitizeNode defaultAllowedTags defaultAllowedAttributes keepsContent).
Local Abbreviation clean :=
  (sanitize defaultAllowedTags defaultAllowedAttributes keepsContent).

Lemma allowedAttributes_a :
  allowedAttributes defaultAllowedAttributes !! lit "a"
  = Some [lit "href"; lit "name"; lit "target"; lit "rel"; lit "title"].
Proof. unfold allowedAttributes. by apply lookup_union_Some_l. Qed.

Lemma keeps_rel value : keeps (lit "a") (lit "rel", value) = true.
Proof. unfold keepAttribute. by rewrite allowedAttributes_a. Qed.

Lemma keeps_target value : keeps (lit "a") (lit "target", value) = true.
Proof. unfold keepAttribute. by rewrite allowedAttributes_a. Qed.

Lemma keeps_external_href value :
  isExternal value = true → keeps (lit "a") (lit "href", value) = true.
Proof.
  intros H. unfold keepAttribute, naughtyHref. rewrite allowedAttributes_a.
  cbn [fst snd]. by destruct (isExternal_scheme value H) as [-> | ->].
Qed.

(** What is kept was allowed, and its scheme, if it is a link, too. *)
Lemma keeps_scheme tagName name value scheme :
  keeps tagName (name, value) = true →
  name ∈ [lit "href"; lit "src"] →
  schemeOf value = Some scheme →
  scheme ∈ schemesFor tagName.
Proof.
  unfold keepAttribute, naughtyHref. simpl.
  intros [_ H]%andb_true_iff Hname Hscheme.
  rewrite (bool_decide_eq_true_2 _ Hname) Hscheme /= in H.
  apply negb_true_iff, negb_false_iff in H. by apply bool_decide_eq_true in H.
Qed.

Lemma cleanNode_Element tagName attribs children :
  cleanNode (Element tagName attribs children) =
    let transformed := transformTag tagName attribs in
    let kept := children ≫= cleanNode in
    if bool_decide (transformed.1 ∈ allowedTags defaultAllowedTags) then
      [Element transformed.1 (List.filter (keeps transformed.1) transformed.2) kept]
    else if keepsContent transformed.1 then kept
    else [].
Proof.
  simpl. destruct (transformTag tagName attribs) as [tagName' attribs'].
  simpl.
  assert ((fix each (nodes : list Node) : list Node :=
             match nodes with
             | [] => []
             | child :: rest => cleanNode child ++ each rest
             end) children = children ≫= cleanNode) as ->; [|done].
  induction children as [|child children IH]; [done|]. csimpl. by rewrite IH.
Qed.

(** *** The anchor step is stable *)

Lemma anchor_fixed attribs :
  NoDup attribs.*1 →
  let out := List.filter (keeps (lit "a")) (transformAnchor (lit "a") attribs).2 in
  transformAnchor (lit "a") out = (lit "a", out).
Proof.
  intros Hnd out.
  pose proof (transformAnchor_NoDup (lit "a") attribs Hnd) as Hnd'.
  destruct (isExternal (default [] (attrGet attribs (lit "href")))) eqn:Hext.
  - assert (attrGet attribs (lit "href")
            = Some (default [] (attrGet attribs (lit "href")))) as Hhref.
    { destruct (attrGet attribs (lit "href")); [done|]. by vm_compute in Hext. }
    assert (attrGet out (lit "href") = attrGet attribs (lit "href")) as Hout_href.
    { unfold out. rewrite attrGet_filter // transformAnchor_other // Hhref.
      by rewrite keeps_external_href. }
    assert (attrGet out (lit "rel")
            = Some (join (lit " ")
                      (relSetOf (default [] (attrGet attribs (lit "rel")))))) as Hout_rel.
    { unfold out. rewrite attrGet_filter // transformAnchor_rel //.
      by rewrite keeps_rel. }
    assert (∃ target, attrGet out (lit "target") = Some target ∧ target ≠ [])
      as (target & Hout_target & Htarget).
    { unfold out. rewrite attrGet_filter // transformAnchor_target // keeps_target.
      eexists. split; [done|]. by case_decide. }
    unfold transformAnchor. rewrite Hout_href Hext Hout_rel. simpl.
    rewrite -/(relSetOf (join _ _)).
    rewrite relSet_fixed (attrSet_same _ _ _ Hout_rel) Hout_target /=.
    by destruct (decide (target = [])).
  - apply transformAnchor_local.
    rewrite (transformAnchor_local _ _ Hext) in out Hnd' |- *. unfold out.
    rewrite attrGet_filter //. cbn [snd] in *.
    destruct (attrGet attribs (lit "href")) as [value|]; [|done].
    by destruct (keeps _ _).
Qed.

Lemma transformTag_fixed tagName attribs :
  NoDup attribs.*1 →
  let transformed := transformTag tagName attribs in
  let out := List.filter (keeps transformed.1) transformed.2 in
  transformTag transformed.1 out = (transformed.1, out).
Proof.
  intros Hnd. unfold transformTag.
  destruct (decide (tagName = lit "a")) as [->|Ha]; simpl.
  - rewrite transformAnchor_tagName. by apply anchor_fixed.
  - by destruct (decide (tagName = lit "a")).
Qed.

(** *** Sanitizing twice *)

Lemma cleanNode_fixed node :
  wellFormed node → clean (cleanNode node) = cleanNode node.
Proof.
  induction node as [data|tagName attribs children IH] using Node_induction.
  - done.
  - intros [Hnd Hwf]%wellFormed_Element.
    assert (clean (children ≫= cleanNode) = children ≫= cleanNode) as Hkept.
    { unfold sanitize. clear Hnd.
      induction children as [|child children IHc]; [done|].
      inversion_clear IH as [|? ? Hchild Hrest].
      inversion_clear Hwf as [|? ? Hwchild Hwrest].
      csimpl. rewrite bind_app. f_equal; [by apply Hchild|by apply IHc]. }
    rewrite cleanNode_Element. cbn zeta.
    pose proof (transformTag_fixed tagName attribs Hnd) as Hfix. cbn zeta in Hfix.
    destruct (transformTag tagName attribs) as [tagName' attribs']. simpl in *.
    destruct (bool_decide (tagName' ∈ allowedTags defaultAllowedTags)) eqn:Hallowed.
    + unfold sanitize.
      change ([?node] ≫= ?f) with (f node ++ []).
      rewrite app_nil_r cleanNode_Element. cbn zeta.
      rewrite Hfix /= Hallowed filter_filter. f_equal. f_equal. apply Hkept.
    + destruct (keepsContent tagName'); [apply Hkept|done].
Qed.

End SanitizerProperties.

Lemma transformTag_tagName tagName attribs :
  (transformTag tagName attribs).1 = tagName.
Proof.
  unfold transformTag. case_decide; [apply transformAnchor_tagName|done].
Qed.

Lemma transformTag_a attribs :
  transformTag (lit "a") attribs = transformAnchor (lit "a") attribs.
Proof. unfold transformTag. by destruct (decide (lit "a" = lit "a")). Qed.

Lemma wellFormed_elements node tagName attribs :
  wellFormed node → (tagName, attribs) ∈ elementsOf node → NoDup attribs.*1.
Proof.
  induction node as [data|tagName' attribs' children IH] using Node_induction.
  - by intros _ ?%elem_of_nil.
  - intros [Hnd Hwf]%wellFormed_Element. rewrite elementsOf_Element.
    intros [[= -> ->]|Hin]%elem_of_cons; [done|].
    apply list_elem_of_bind in Hin as (child & Hin & Hchild).
    rewrite !Forall_forall in IH, Hwf. by apply (IH child Hchild); [apply Hwf|].
Qed.

Section SanitizedElements.

Variable defaultAllowedTags : list jsstring.
Variable defaultAllowedAttributes : gmap jsstring (list jsstring).
Variable keepsContent : jsstring → bool.

Local Abbreviation keeps := (keepAttribute defaultAllowedAttributes).
Local Abbreviation cleanNode :=
  (sanitizeNode defaultAllowedTags defaultAllowedAttributes keepsContent).
Local Abbreviation clean :=
  (sanitize defaultAllowedTags defaultAllowedAttributes keepsContent).

(** Every element of the output is an element of the input, on the allow
    list, after the transform of its tag and the attribute filter. *)
Lemma cleanNode_elements node tagName attribs :
  (tagName, attribs) ∈ cleanNode node ≫= elementsOf →
  tagName ∈ allowedTags defaultAllowedTags ∧
  ∃ attribs0,
    (tagName, attribs0) ∈ elementsOf node ∧
    attribs = List.filter (keeps tagName) (transformTag tagName attribs0).2.
Proof.
  induction node as [data|tagName' attribs' children IH] using Node_induction.
  - by intros ?%elem_of_nil.
  - assert ((tagName, attribs) ∈ (children ≫= cleanNode) ≫= elementsOf →
            tagName ∈ allowedTags defaultAllowedTags ∧
            ∃ attribs0,
              (tagName, attribs0) ∈ elementsOf (Element tagName' attribs' children) ∧
              attribs = List.filter (keeps tagName) (transformTag tagName attribs0).2)
      as Hkept.
    { intros (node & Hin & (child & Hnode & Hchild)%list_elem_of_bind)%list_elem_of_bind.
      rewrite Forall_forall in IH.
      destruct (IH child Hchild) as (Hallowed & attribs0 & Hin0 & ->).
      { apply list_elem_of_bind. eauto. }
      split; [done|]. exists attribs0. split; [|done].
      rewrite elementsOf_Element. right. apply list_elem_of_bind. eauto. }
    rewrite cleanNode_Element. cbn zeta.
    pose proof (transformTag_tagName tagName' attribs') as Htag.
    destruct (transformTag tagName' attribs') as [tagName'' attribs''] eqn:Ht.
    cbn [fst snd] in *. subst tagName''.
    destruct (bool_decide _) eqn:Hallowed.
    + change ([?node] ≫= ?f) with (f node ++ []).
      rewrite app_nil_r elementsOf_Element.
      intros [[= -> ->]|Hin]%elem_of_cons; [|by apply Hkept].
      split; [by apply bool_decide_eq_true in Hallowed|].
      exists attribs'. rewrite elementsOf_Element Ht. split; [by left|done].
    + destruct (keepsContent tagName'); [apply Hkept|by intros ?%elem_of_nil].
Qed.

Lemma clean_elements fragment tagName attribs :
  (tagName, attribs) ∈ clean fragment ≫= elementsOf →
  tagName ∈ allowedTags defaultAllowedTags ∧
  ∃ attribs0,
    (tagName, attribs0) ∈ fragment ≫= elementsOf ∧
    attribs = List.filter (keeps tagName) (transformTag tagName attribs0).2.
Proof.
  unfold sanitize.
  intros (node & Hin & (node0 & Hnode & Hnode0)%list_elem_of_bind)%list_elem_of_bind.
  destruct (cleanNode_elements node0 tagName attribs) as (Hallowed & attribs0 & Hin0 & ->).
  { apply list_elem_of_bind. eauto. }
  split; [done|]. exists attribs0. split; [|done]. apply list_elem_of_bind. eauto.
Qed.

(** The attributes of an anchor that leaves the sanitizer with an
    absolute link. *)
Lemma anchor_out attribs0 :
  NoDup attribs0.*1 →
  let out := List.filter (keeps (lit "a")) (transformAnchor (lit "a") attribs0).2 in
  isExternal (default [] (attrGet out (lit "href"))) = true →
  isExternal (default [] (attrGet attribs0 (lit "href"))) = true ∧
  attrGet out (lit "rel")
  = Some (join (lit " ") (relSetOf (default [] (attrGet attribs0 (lit "rel"))))) ∧
  attrGet out (lit "target")
  = Some (if decide (default [] (attrGet attribs0 (lit "target")) = [])
          then lit "_blank" else default [] (attrGet attribs0 (lit "target"))).
Proof.
  intros Hnd out Hext.
  pose proof (transformAnchor_NoDup (lit "a") attribs0 Hnd) as Hnd'.
  assert (isExternal (default [] (attrGet attribs0 (lit "href"))) = true) as Hext0.
  { unfold out in Hext. rewrite attrGet_filter // transformAnchor_other // in Hext.
    destruct (attrGet attribs0 (lit "href")) as [value|]; [|done].
    by destruct (keeps _ _). }
  split; [done|]. unfold out. split.
  - by rewrite attrGet_filter // transformAnchor_rel // keeps_rel.
  - by rewrite attrGet_filter // transformAnchor_target // keeps_target.
Qed.

End SanitizedElements.

(** ** The sanitized output *)

Lemma sampleFragment_wellFormed : Forall wellFormed sampleFragment.
Proof.
  repeat first
    [ apply Forall_nil_2 | apply Forall_cons_2 | apply wellFormed_Element; split
    | exact I | apply (bool_decide_unpack _); vm_compute; exact I ].
Qed.

Example sanitize_sample :
  sanitize [lit "p"; lit "a"] ∅ (λ tagName, negb (bool_decide (tagName = lit "script")))
    sampleFragment = sampleSanitized.
Proof. vm_compute. reflexivity. Qed.

(** C1: the transform gives every absolute link a [rel] that holds
    [noopener], [noreferrer] and the author's tokens, each once, and the
    target [_blank] unless the author wrote a target of their own; it
    leaves every other attribute and every other anchor as they were.  In
    the sanitized output, therefore, an anchor with an absolute link has
    both tokens in its [rel], and a target. *)
Theorem anchor_rel_enforced :
  (∀ tagName attribs,
     let linkHref := default [] (attrGet attribs (lit "href")) in
     let linkRel := default [] (attrGet attribs (lit "rel")) in
     let linkTarget := default [] (attrGet attribs (lit "target")) in
     let out := (transformAnchor tagName attribs).2 in
     (transformAnchor tagName attribs).1 = tagName ∧
     (isExternal linkHref = true →
        ∃ rel',
          attrGet out (lit "rel") = Some rel' ∧
          lit "noopener" ∈ relTokens rel' ∧
          lit "noreferrer" ∈ relTokens rel' ∧
          (∀ token, token ∈ relTokens linkRel → token ∈ relTokens rel') ∧
          NoDup (relTokens rel') ∧
          attrGet out (lit "target")
          = Some (if decide (linkTarget = []) then lit "_blank" else linkTarget) ∧
          ∀ name, name ≠ lit "rel" → name ≠ lit "target" →
                  attrGet out name = attrGet attribs name) ∧
     (isExternal linkHref = false → out = attribs)) ∧
  (∀ defaultAllowedTags defaultAllowedAttributes keepsContent fragment attribs,
     Forall wellFormed fragment →
     (lit "a", attribs)
       ∈ sanitize defaultAllowedTags defaultAllowedAttributes keepsContent fragment
         ≫= elementsOf →
     isExternal (default [] (attrGet attribs (lit "href"))) = true →
     lit "noopener" ∈ relTokens (default [] (attrGet attribs (lit "rel"))) ∧
     lit "noreferrer" ∈ relTokens (default [] (attrGet attribs (lit "rel"))) ∧
     NoDup (relTokens (default [] (attrGet attribs (lit "rel")))) ∧
     default [] (attrGet attribs (lit "target")) ≠ []).
Proof.
  split.
  - intros tagName attribs linkHref linkRel linkTarget out.
    split; [apply transformAnchor_tagName|]. split.
    + intros Hext. exists (join (lit " ") (relSetOf linkRel)).
      rewrite relSet_read.
      split; [by apply transformAnchor_rel|].
      split; [apply relSet_elem; auto|].
      split; [apply relSet_elem; auto|].
      split; [intros token Htoken; apply relSet_elem; auto|].
      split; [apply relSet_NoDup|].
      split; [by apply transformAnchor_target|].
      intros name Hr Ht. by apply transformAnchor_other.
    + intros Hext. unfold out. by rewrite transformAnchor_local.
  - intros D1 D2 K fragment attribs Hwf Hin Hext.
    apply clean_elements in Hin as (_ & attribs0 & Hin0 & ->).
    assert (NoDup attribs0.*1) as Hnd.
    { apply list_elem_of_bind in Hin0 as (node & Hin0 & Hnode).
      rewrite Forall_forall in Hwf. eapply wellFormed_elements; eauto. }
    rewrite transformTag_a in Hext |- *.
    destruct (anchor_out D2 attribs0 Hnd Hext) as (_ & -> & ->).
    simpl. rewrite relSet_read.
    split; [apply relSet_elem; auto|].
    split; [apply relSet_elem; auto|].
    split; [apply relSet_NoDup|]. by case_decide.
Qed.

Lemma anchor_rel_enforced_witness :
  Forall wellFormed sampleFragment ∧
  (lit "a",
   [ (lit "href", lit "HTTPS://x.y");
     (lit "rel", lit "nofollow noopener noreferrer");
     (lit "target", lit "_blank") ])
    ∈ sanitize [lit "p"; lit "a"] ∅ (λ _, true) sampleFragment ≫= elementsOf ∧
  isExternal (lit "HTTPS://x.y") = true ∧
  lit "noopener" ∈ relTokens (lit "nofollow noopener noreferrer") ∧
  lit "noreferrer" ∈ relTokens (lit "nofollow noopener noreferrer") ∧
  NoDup (relTokens (lit "nofollow noopener noreferrer")) ∧
  lit "_blank" ≠ [].
Proof.
  split; [exact sampleFragment_wellFormed|].
  split; [apply (bool_decide_unpack _); vm_compute; exact I|].
  split; [reflexivity|].
  apply (proj2 anchor_rel_enforced [lit "p"; lit "a"] ∅ (λ _, true) sampleFragment
           [ (lit "href", lit "HTTPS://x.y");
             (lit "rel", lit "nofollow noopener noreferrer");
             (lit "target", lit "_blank") ]).
  - exact sampleFragment_wellFormed.
  - apply (bool_decide_unpack _). vm_compute. exact I.
  - reflexivity.
Defined.

(** C2: in the sanitized output a link of an element ([href] or [src])
    has no scheme at all or one the policy allows for that tag: [http],
    [https] and [data] on [img], [http], [https] and [mailto] on every
    other tag, [a] among them. *)
Theorem sanitize_schemes
    defaultAllowedTags defaultAllowedAttributes keepsContent
    fragment tagName attribs name value scheme :
  (tagName, attribs)
    ∈ sanitize defaultAllowedTags defaultAllowedAttributes keepsContent fragment
      ≫= elementsOf →
  name ∈ [lit "href"; lit "src"] →
  (name, value) ∈ attribs →
  schemeOf value = Some scheme →
  scheme ∈ (if decide (tagName = lit "img")
            then [lit "http"; lit "https"; lit "data"]
            else [lit "http"; lit "https"; lit "mailto"]).
Proof.
  intros Hin Hname Hattr Hscheme.
  apply clean_elements in Hin as (_ & attribs0 & _ & ->).
  apply list_elem_of_In, filter_In in Hattr as [_ Hkeep].
  pose proof (keeps_scheme _ _ _ _ _ Hkeep Hname Hscheme) as Hs.
  case_decide as Himg.
  - subst tagName. by rewrite schemesFor_img in Hs.
  - by rewrite schemesFor_other in Hs.
Qed.

Lemma sanitize_schemes_witness :
  (lit "img", [(lit "src", lit "data:image/png;base64,xx"); (lit "alt", lit "")])
    ∈ sanitize [lit "p"; lit "a"] ∅ (λ _, true) sampleFragment ≫= elementsOf ∧
  lit "src" ∈ [lit "href"; lit "src"] ∧
  schemeOf (lit "data:image/png;base64,xx") = Some (lit "data") ∧
  lit "data" ∈ [lit "http"; lit "https"; lit "data"].
Proof.
  assert ((lit "img", [(lit "src", lit "data:image/png;base64,xx"); (lit "alt", lit "")])
            ∈ sanitize [lit "p"; lit "a"] ∅ (λ _, true) sampleFragment ≫= elementsOf)
    as Hin by (apply (bool_decide_unpack _); vm_compute; exact I).
  assert (lit "src" ∈ [lit "href"; lit "src"]) as Hname
    by (apply (bool_decide_unpack _); vm_compute; exact I).
  split; [exact Hin|]. split; [exact Hname|]. split; [reflexivity|].
  apply (sanitize_schemes [lit "p"; lit "a"] ∅ (λ _, true) sampleFragment
           (lit "img") _ (lit "src") (lit "data:image/png;base64,xx") (lit "data")
           Hin Hname).
  - apply (bool_decide_unpack _). vm_compute. exact I.
  - reflexivity.
Defined.

(** A script link loses its [href]; the anchor stays. *)
Example sanitize_javascript_href tags attrs keepsContent :
  sanitize tags attrs keepsContent
    [Element (lit "a") [(lit "href", lit "javascript:alert(1)")] [Text (lit "t")]]
  = if bool_decide (lit "a" ∈ allowedTags tags)
    then [Element (lit "a") [] [Text (lit "t")]]
    else if keepsContent (lit "a") then [Text (lit "t")] else [].
Proof.
  unfold sanitize. change ([?node] ≫= ?f) with (f node ++ []).
  rewrite app_nil_r cleanNode_Element. cbn zeta.
  rewrite transformTag_a transformAnchor_local //=.
  unfold keepAttribute. by rewrite allowedAttributes_a.
Qed.

(** On a parsed fragment the filter is idempotent: the tags, the
    attributes and the anchors it lets through pass it unchanged. *)
Lemma sanitize_idempotent
    defaultAllowedTags defaultAllowedAttributes keepsContent fragment :
  Forall wellFormed fragment →
  sanitize defaultAllowedTags defaultAllowedAttributes keepsContent
    (sanitize defaultAllowedTags defaultAllowedAttributes keepsContent fragment)
  = sanitize defaultAllowedTags defaultAllowedAttributes keepsContent fragment.
Proof.
  intros Hwf. unfold sanitize at 2 3.
  induction Hwf as [|node fragment Hnode _ IH]; [done|].
  rewrite bind_cons. unfold sanitize in IH |- *. rewrite bind_app IH.
  f_equal. by apply cleanNode_fixed.
Qed.

(** ** Reading a fragment back *)

Lemma joinNode_Element tagName attribs children :
  joinNode (Element tagName attribs children)
  = Element tagName attribs (joinTexts children).
Proof. reflexivity. Qed.

Lemma joinTexts_cons node fragment :
  joinTexts (node :: fragment) = joinText (joinNode node) (joinTexts fragment).
Proof. reflexivity. Qed.

Lemma writeNode_Element tagName attribs children :
  writeNode (Element tagName attribs children)
  = lit "<" ++ tagName ++ (attribs ≫= writeAttribute) ++
    if bool_decide (tagName ∈ selfClosing) then lit " />"
    else lit ">" ++ writeHtml children ++ lit "</" ++ tagName ++ lit ">".
Proof. reflexivity. Qed.

Lemma writeEscaped_text_app s s' :
  writeEscaped false (s ++ s') = writeEscaped false s ++ writeEscaped false s'.
Proof. unfold writeEscaped, replaceAll. by rewrite !bind_app. Qed.

Lemma writeHtml_joinText node rest :
  writeHtml (joinText node rest) = writeNode node ++ writeHtml rest.
Proof.
  destruct node as [data|tagName attribs children]; [|done].
  destruct rest as [|[data'|tagName attribs children] rest]; try done.
  change (writeEscaped false (data ++ data') ++ writeHtml rest
          = writeEscaped false data ++ writeEscaped false data' ++ writeHtml rest).
  by rewrite writeEscaped_text_app -app_assoc.
Qed.

(** The writer does not tell one text from two that meet. *)
Lemma writeNode_joinNode node : writeNode (joinNode node) = writeNode node.
Proof.
  induction node as [data|tagName attribs children IH] using Node_induction;
    [done|].
  rewrite joinNode_Element !writeNode_Element.
  do 3 f_equal. destruct (bool_decide _); [done|]. do 2 f_equal.
  induction IH as [|child children Hchild _ IHc]; [done|].
  rewrite joinTexts_cons writeHtml_joinText Hchild IHc. done.
Qed.

Lemma writeHtml_joinTexts fragment :
  writeHtml (joinTexts fragment) = writeHtml fragment.
Proof.
  induction fragment as [|node fragment IH]; [done|].
  by rewrite joinTexts_cons writeHtml_joinText writeNode_joinNode IH.
Qed.

Section SettledFragments.

Variable defaultAllowedTags : list jsstring.
Variable defaultAllowedAttributes : gmap jsstring (list jsstring).
Variable keepsContent : jsstring → bool.

Local Abbreviation keeps := (keepAttribute defaultAllowedAttributes).
Local Abbreviation cleanNode :=
  (sanitizeNode defaultAllowedTags defaultAllowedAttributes keepsContent).
Local Abbreviation clean :=
  (sanitize defaultAllowedTags defaultAllowedAttributes keepsContent).
Local Abbreviation isSettled :=
  (settled defaultAllowedTags defaultAllowedAttributes).

Lemma settled_Element tagName attribs children :
  isSettled (Element tagName attribs children)
  ↔ tagName ∈ allowedTags defaultAllowedTags ∧
    transformTag tagName attribs = (tagName, attribs) ∧
    List.filter (keeps tagName) attribs = attribs ∧
    Forall isSettled children.
Proof.
  simpl. do 3 apply and_iff_compat_l.
  induction children as [|child children IH]; [by split|].
  rewrite Forall_cons IH. done.
Qed.

(** The sanitizer leaves a settled fragment as it is. *)
Lemma settled_fixed fragment :
  Forall isSettled fragment → clean fragment = fragment.
Proof.
  intros Hall. unfold sanitize.
  induction Hall as [|node fragment Hnode _ IH]; [done|].
  rewrite bind_cons IH. change (node :: fragment) with ([node] ++ fragment).
  f_equal. clear IH fragment.
  induction node as [data|tagName attribs children IH] using Node_induction;
    [done|].
  apply settled_Element in Hnode as (Hallowed & Htransform & Hfilter & Hchildren).
  rewrite cleanNode_Element. cbn zeta. rewrite Htransform /=.
  rewrite bool_decide_eq_true_2 // Hfilter. do 2 f_equal.
  induction children as [|child children IHc]; [done|].
  inversion_clear IH as [|? ? Hchild Hrest].
  inversion_clear Hchildren as [|? ? Hschild Hsrest].
  rewrite bind_cons Hchild // IHc //.
Qed.

(** What the sanitizer returns is settled. *)
Lemma clean_settled fragment :
  Forall wellFormed fragment → Forall isSettled (clean fragment).
Proof.
  intros Hwf. unfold sanitize. apply Forall_bind.
  induction Hwf as [|node fragment Hnode _ IH]; constructor; [|done].
  clear IH fragment. simpl.
  induction node as [data|tagName attribs children IH] using Node_induction.
  { by repeat constructor. }
  apply wellFormed_Element in Hnode as [Hnd Hwf].
  assert (Forall isSettled (children ≫= cleanNode)) as Hkept.
  { apply Forall_bind. clear Hnd.
    induction IH as [|child children Hchild _ IHc]; constructor.
    - apply Hchild. by inversion Hwf.
    - apply IHc. by inversion Hwf. }
  rewrite cleanNode_Element. cbn zeta.
  pose proof (transformTag_fixed defaultAllowedAttributes tagName attribs Hnd)
    as Hfix. cbn zeta in Hfix.
  destruct (transformTag tagName attribs) as [tagName' attribs']. simpl in *.
  destruct (bool_decide (tagName' ∈ allowedTags defaultAllowedTags)) eqn:Hallowed.
  - constructor; [|done]. apply settled_Element.
    split; [by apply bool_decide_eq_true in Hallowed|].
    split; [done|]. split; [apply filter_filter|done].
  - by destruct (keepsContent tagName').
Qed.

Lemma joinText_settled node rest :
  isSettled node → Forall isSettled rest → Forall isSettled (joinText node rest).
Proof.
  intros Hnode Hrest. destruct node as [data|tagName attribs children].
  - destruct Hrest as [|[data'|tagName attribs children] rest Hfirst Hrest].
    + by constructor.
    + by constructor.
    + constructor; [done|]. by constructor.
  - by constructor.
Qed.

(** Reading it back from its own text leaves a settled fragment settled. *)
Lemma joinTexts_settled fragment :
  Forall isSettled fragment → Forall isSettled (joinTexts fragment).
Proof.
  intros Hall. induction Hall as [|node fragment Hnode _ IH]; [done|].
  rewrite joinTexts_cons. apply joinText_settled; [|done].
  clear IH fragment.
  induction node as [data|tagName attribs children IH] using Node_induction;
    [done|].
  apply settled_Element in Hnode as (Hallowed & Htransform & Hfilter & Hchildren).
  rewrite joinNode_Element. apply settled_Element. do 3 (split; [done|]).
  induction children as [|child children IHc]; [done|].
  inversion_clear IH as [|? ? Hchild Hrest].
  inversion_clear Hchildren as [|? ? Hschild Hsrest].
  rewrite joinTexts_cons. apply joinText_settled; auto.
Qed.

End SettledFragments.

(** ** What the parser yields *)

Lemma addAttribute_NoDup attribs attr value :
  NoDup attribs.*1 → NoDup (addAttribute attribs attr value).*1.
Proof.
  intros Hnd. unfold addAttribute. case_bool_decide as Hin; [done|].
  rewrite fmap_app. apply NoDup_app. split; [done|].
  split; [|apply NoDup_singleton].
  intros name Hname [->|[]%elem_of_nil]%elem_of_cons. done.
Qed.

Lemma chars_wellFormed data : Forall markupWellFormed (chars data).
Proof. unfold chars. case_decide; by repeat constructor. Qed.

Lemma readUnit_wellFormed state c :
  readingWellFormed state →
  Forall markupWellFormed (readUnit state c).1 ∧
  readingWellFormed (readUnit state c).2.
Proof.
  intros Hstate.
  destruct state; simpl in *;
    repeat match goal with |- context [if ?b then _ else _] => destruct b end;
    simpl; split;
    auto using chars_wellFormed, addAttribute_NoDup, NoDup_nil_2;
    repeat constructor; simpl; auto using addAttribute_NoDup, NoDup_nil_2.
Qed.

Lemma readUnits_wellFormed state html :
  readingWellFormed state → Forall markupWellFormed (readUnits state html).
Proof.
  revert state. induction html as [|c html IH]; intros state Hstate.
  - destruct state; simpl; auto using chars_wellFormed.
  - simpl. destruct (readUnit_wellFormed state c Hstate) as [Hout Hnext].
    destruct (readUnit state c) as [markup state']. simpl in *.
    apply Forall_app. auto.
Qed.

Lemma appendNodes_wellFormed nodes stack done :
  Forall wellFormed nodes →
  Forall openWellFormed stack → Forall wellFormed done →
  Forall openWellFormed (appendNodes nodes stack done).1 ∧
  Forall wellFormed (appendNodes nodes stack done).2.
Proof.
  intros Hnodes Hstack Hdone.
  destruct Hstack as [|top below [Hnd Hchildren] Hbelow]; simpl.
  - split; [done|]. by apply Forall_app.
  - split; [|done]. constructor; [|done]. split; [done|]. by apply Forall_app.
Qed.

Lemma closeWhile_wellFormed closes inner stack done :
  Forall wellFormed inner →
  Forall openWellFormed stack → Forall wellFormed done →
  Forall openWellFormed (closeWhile closes inner stack done).1 ∧
  Forall wellFormed (closeWhile closes inner stack done).2.
Proof.
  intros Hinner Hstack. revert inner Hinner.
  induction Hstack as [|top below [Hnd Hchildren] Hbelow IH];
    intros inner Hinner Hdone.
  - simpl. split; [done|]. by apply Forall_app.
  - simpl. destruct (closes (openName top)).
    + apply IH; [|done]. constructor; [|done].
      apply wellFormed_Element. split; [done|]. by apply Forall_app.
    + apply (appendNodes_wellFormed inner (top :: below)); [done| |done].
      by constructor.
Qed.

Lemma closeThrough_wellFormed name inner stack done :
  Forall wellFormed inner →
  Forall openWellFormed stack → Forall wellFormed done →
  Forall openWellFormed (closeThrough name inner stack done).1 ∧
  Forall wellFormed (closeThrough name inner stack done).2.
Proof.
  intros Hinner Hstack. revert inner Hinner.
  induction Hstack as [|top below [Hnd Hchildren] Hbelow IH];
    intros inner Hinner Hdone.
  - simpl. split; [done|]. by apply Forall_app.
  - assert (wellFormed
              (Element (openName top) (openAttribs top) (openChildren top ++ inner)))
      as Helement.
    { apply wellFormed_Element. split; [done|]. by apply Forall_app. }
    simpl. destruct (decide (openName top = name)).
    + apply appendNodes_wellFormed; [|done|done]. by constructor.
    + apply IH; [|done]. by constructor.
Qed.

Lemma buildStep_wellFormed state markup :
  markupWellFormed markup →
  Forall openWellFormed state.1 → Forall wellFormed state.2 →
  Forall openWellFormed (buildStep state markup).1 ∧
  Forall wellFormed (buildStep state markup).2.
Proof.
  destruct state as [stack done]. simpl.
  intros Hmarkup Hstack Hdone.
  assert (∀ name, wellFormed (Element name [] [])) as Hempty.
  { intros name. apply wellFormed_Element. split; [apply NoDup_nil_2|done]. }
  destruct markup as [name attribs|name|data]; simpl in *.
  - destruct (closeWhile_wellFormed (impliesClose name) [] stack done)
      as [Hstack' Hdone']; [done..|].
    destruct (closeWhile (impliesClose name) [] stack done) as [stack' done'].
    simpl in *. case_bool_decide.
    + apply appendNodes_wellFormed; [|done|done]. constructor; [|done].
      by apply wellFormed_Element.
    + simpl. split; [|done]. constructor; [|done]. by split.
  - repeat case_bool_decide; repeat case_decide; simpl; auto;
      try (apply appendNodes_wellFormed; by [|repeat constructor]).
    by apply closeThrough_wellFormed.
  - apply appendNodes_wellFormed; [|done|done]. by repeat constructor.
Qed.

(** The parser yields every element with one attribute of a name at most. *)
Lemma parseHtml_wellFormed html : Forall wellFormed (parseHtml html).
Proof.
  unfold parseHtml, buildTree.
  assert (∀ markup state,
            Forall markupWellFormed markup →
            Forall openWellFormed state.1 → Forall wellFormed state.2 →
            Forall openWellFormed (foldl buildStep state markup).1 ∧
            Forall wellFormed (foldl buildStep state markup).2) as Hfold.
  { induction markup as [|m markup IH]; intros state Hmarkup Hstack Hdone;
      [done|].
    inversion_clear Hmarkup as [|? ? Hm Hrest]. simpl.
    destruct (buildStep_wellFormed state m) as [? ?]; [done..|]. by apply IH. }
  destruct (Hfold (readMarkup html) ([], [])) as [Hstack Hdone]; [|done|done|].
  { by apply readUnits_wellFormed. }
  destruct (foldl buildStep ([], []) (readMarkup html)) as [stack done].
  by apply closeWhile_wellFormed.
Qed.

(** ** Sanitizing twice, from string to string *)

(** C3, as the specification words it, fails on a list item that holds
    another one inside a tag the policy does not allow, here with [li]
    among the tags the library allows by default: the sanitizer drops the
    tag [x] and keeps what is inside it, which leaves a list item directly
    inside a list item; read again, the inner item ends the outer one, and
    the second pass returns another string than the first. *)
Lemma sanitizeHtml_not_idempotent :
  sanitizeHtmlWith parseHtml writeHtml [lit "li"] ∅ (λ _, true)
    (lit "<li>a<x><li>b</li></x></li>")
  = lit "<li>a<li>b</li></li>" ∧
  sanitizeHtmlWith parseHtml writeHtml [lit "li"] ∅ (λ _, true)
    (lit "<li>a<li>b</li></li>")
  = lit "<li>a</li><li>b</li>" ∧
  sanitizeHtmlWith parseHtml writeHtml [lit "li"] ∅ (λ _, true)
    (sanitizeHtmlWith parseHtml writeHtml [lit "li"] ∅ (λ _, true)
       (lit "<li>a<x><li>b</li></x></li>"))
  ≠ sanitizeHtmlWith parseHtml writeHtml [lit "li"] ∅ (λ _, true)
      (lit "<li>a<x><li>b</li></x></li>").
Proof.
  split; [vm_compute; reflexivity|]. split; [vm_compute; reflexivity|].
  vm_compute. discriminate.
Qed.

(** The same happens whatever the library allows by default, as long as
    it drops [x] and keeps what is inside it: [dd] is allowed by the
    module itself. *)
Lemma sanitizeHtml_renests
    defaultAllowedTags defaultAllowedAttributes keepsContent :
  lit "x" ∉ defaultAllowedTags →
  keepsContent (lit "x") = true →
  let pass :=
    sanitizeHtmlWith parseHtml writeHtml
      defaultAllowedTags defaultAllowedAttributes keepsContent in
  pass (lit "<dd>a<x><dd>b</dd></x></dd>") = lit "<dd>a<dd>b</dd></dd>" ∧
  pass (lit "<dd>a<dd>b</dd></dd>") = lit "<dd>a</dd><dd>b</dd>".
Proof.
  intros Hx Hkeeps pass.
  assert (bool_decide (lit "dd" ∈ allowedTags defaultAllowedTags) = true) as Hdd.
  { apply bool_decide_eq_true_2, newSet_elem, elem_of_app. right.
    apply (bool_decide_unpack _). vm_compute. exact I. }
  assert (bool_decide (lit "x" ∈ allowedTags defaultAllowedTags) = false) as Hdropped.
  { apply bool_decide_eq_false_2. intros [H|H]%newSet_elem%elem_of_app; [done|].
    by apply (bool_decide_pack _) in H. }
  assert (∀ tagName attribs,
            bool_decide (tagName = lit "a") = false →
            transformTag tagName attribs = (tagName, attribs)) as Hplain.
  { intros tagName attribs H. unfold transformTag.
    destruct (decide (tagName = lit "a")) as [->|]; [done|done]. }
  unfold pass, sanitizeHtmlWith. split.
  - assert (parseHtml (lit "<dd>a<x><dd>b</dd></x></dd>")
            = [Element (lit "dd") []
                 [Text (lit "a");
                  Element (lit "x") [] [Element (lit "dd") [] [Text (lit "b")]]]])
      as -> by (vm_compute; reflexivity).
    unfold sanitize. change ([?node] ≫= ?f) with (f node ++ []).
    rewrite app_nil_r cleanNode_Element. cbn zeta.
    rewrite Hplain // /= Hdd Hdropped Hkeeps.
    vm_compute. reflexivity.
  - assert (parseHtml (lit "<dd>a<dd>b</dd></dd>")
            = [Element (lit "dd") [] [Text (lit "a")];
               Element (lit "dd") [] [Text (lit "b")]])
      as -> by (vm_compute; reflexivity).
    unfold sanitize. change ([?a; ?node] ≫= ?f) with (f a ++ f node ++ []).
    rewrite app_nil_r !cleanNode_Element. cbn zeta.
    rewrite !Hplain // /= Hdd.
    vm_compute. reflexivity.
Qed.

(** A second pass returns the string of the first whenever the parser
    reads that string back as the fragment it was written from, whatever
    the parser and the writer are, as long as the parser gives an element
    one attribute of a name at most and the writer does not tell one text
    from two that meet. *)
Lemma sanitizeHtmlWith_idempotent
    (read : jsstring → list Node) (write : list Node → jsstring)
    defaultAllowedTags defaultAllowedAttributes keepsContent html :
  let sanitized :=
    sanitize defaultAllowedTags defaultAllowedAttributes keepsContent (read html) in
  Forall wellFormed (read html) →
  read (write sanitized) = joinTexts sanitized →
  write (joinTexts sanitized) = write sanitized →
  sanitizeHtmlWith read write defaultAllowedTags defaultAllowedAttributes keepsContent
    (sanitizeHtmlWith read write
       defaultAllowedTags defaultAllowedAttributes keepsContent html)
  = sanitizeHtmlWith read write
      defaultAllowedTags defaultAllowedAttributes keepsContent html.
Proof.
  intros sanitized Hwf Hread Hwrite. unfold sanitizeHtmlWith.
  fold sanitized. rewrite Hread settled_fixed; [done|].
  apply joinTexts_settled. by apply clean_settled.
Qed.

(** C3, amended: a second pass of the sanitizer returns the string of the
    first whenever the parser reads that string back as the fragment it
    was written from, texts that met when a tag between them was dropped
    being read as one text.  The tags, the attributes, the links and the
    anchors of the first pass go through the second unchanged. *)
Theorem sanitizeHtml_idempotent_read_back
    defaultAllowedTags defaultAllowedAttributes keepsContent html :
  parseHtml
    (sanitizeHtmlWith parseHtml writeHtml
       defaultAllowedTags defaultAllowedAttributes keepsContent html)
  = joinTexts
      (sanitize defaultAllowedTags defaultAllowedAttributes keepsContent
         (parseHtml html)) →
  sanitizeHtmlWith parseHtml writeHtml
    defaultAllowedTags defaultAllowedAttributes keepsContent
    (sanitizeHtmlWith parseHtml writeHtml
       defaultAllowedTags defaultAllowedAttributes keepsContent html)
  = sanitizeHtmlWith parseHtml writeHtml
      defaultAllowedTags defaultAllowedAttributes keepsContent html.
Proof.
  intros Hread. apply sanitizeHtmlWith_idempotent.
  - apply parseHtml_wellFormed.
  - exact Hread.
  - apply writeHtml_joinTexts.
Qed.

Lemma sanitizeHtml_idempotent_read_back_witness :
  parseHtml
    (sanitizeHtmlWith parseHtml writeHtml [lit "p"; lit "a"] ∅ (λ _, true) sampleHtml)
  = joinTexts (sanitize [lit "p"; lit "a"] ∅ (λ _, true) (parseHtml sampleHtml)) ∧
  sanitizeHtmlWith parseHtml writeHtml [lit "p"; lit "a"] ∅ (λ _, true)
    (sanitizeHtmlWith parseHtml writeHtml [lit "p"; lit "a"] ∅ (λ _, true) sampleHtml)
  = sanitizeHtmlWith parseHtml writeHtml [lit "p"; lit "a"] ∅ (λ _, true) sampleHtml.
Proof.
  split; [vm_compute; reflexivity|].
  apply (sanitizeHtml_idempotent_read_back [lit "p"; lit "a"] ∅ (λ _, true) sampleHtml).
  vm_compute. reflexivity.
Defined.

(** ** The definition list, end to end *)


Section DefinitionListRoundTrip.

Variable TokenList : Type.
Variable inlineTokens : jsstring → TokenList.
Variable parseInline : TokenList → jsstring.

(** C6: the source [Term], [: First def], [: Second def] on three lines
    is consumed whole as one entry with two descriptions, each text going
    through the inline lexer, and renders as one [dl] holding one [dt]
    then two [dd] in source order; the sanitizer's allow list holds the
    three tags whatever the library's defaults are. *)
Theorem definition_list_round_trip :
  ∃ token,
    tokenizer inlineTokens sampleDefinitionList = Some token ∧
    raw token = sampleDefinitionList ∧
    items token =
      [ {| term := inlineTokens (lit "Term");
           descriptions :=
             [inlineTokens (lit "First def"); inlineTokens (lit "Second def")] |} ] ∧
    renderer parseInline token =
      lit "<dl>" ++
      lit "<dt>" ++ parseInline (inlineTokens (lit "Term")) ++ lit "</dt>" ++
      lit "<dd>" ++ parseInline (inlineTokens (lit "First def")) ++ lit "</dd>" ++
      lit "<dd>" ++ parseInline (inlineTokens (lit "Second def")) ++ lit "</dd>" ++
      lit "</dl>" ∧
    ∀ defaultAllowedTags,
      Forall (λ tagName, tagName ∈ allowedTags defaultAllowedTags)
        [lit "dl"; lit "dt"; lit "dd"].
Proof.
  eexists. split; [vm_compute; reflexivity|].
  split; [reflexivity|]. split; [reflexivity|]. split.
  - cbn. rewrite -?app_assoc. reflexivity.
  - intros defaults.
    repeat (apply Forall_cons_2 || apply Forall_nil_2);
      apply newSet_elem, elem_of_app; right;
      apply (bool_decide_unpack _); vm_compute; exact I.
Qed.

End DefinitionListRoundTrip.


(** * Further properties *)

(** ** Escaping *)

Lemma replaceAll_app c replacement a b :
  replaceAll c replacement (a ++ b)
  = replaceAll c replacement a ++ replaceAll c replacement b.
Proof. unfold replaceAll. apply bind_app. Qed.

Lemma escapeHtmlChain_app a b :
  escapeHtmlChain (a ++ b) = escapeHtmlChain a ++ escapeHtmlChain b.
Proof. unfold escapeHtmlChain. by rewrite !replaceAll_app. Qed.

Lemma escapeHtmlChain_unit c : escapeHtmlChain [c] = escapeUnit c.
Proof.
  unfold escapeHtmlChain, escapeUnit, replaceAll.
  change ([c] ≫= ?f) with (f c ++ []). rewrite app_nil_r.
  destruct (N.eqb_spec c 38) as [->|H38]; [reflexivity|].
  change ([c] ≫= ?f) with (f c ++ []). rewrite app_nil_r.
  destruct (N.eqb_spec c 60) as [->|H60]; [reflexivity|].
  change ([c] ≫= ?f) with (f c ++ []). rewrite app_nil_r.
  destruct (N.eqb_spec c 62) as [->|H62]; [reflexivity|].
  change ([c] ≫= ?f) with (f c ++ []). rewrite app_nil_r.
  destruct (N.eqb_spec c 34) as [->|H34]; [reflexivity|].
  change ([c] ≫= ?f) with (f c ++ []). rewrite app_nil_r.
  by destruct (N.eqb_spec c 39) as [->|H39].
Qed.

(** The five replacements of the source, run in their order, do to every
    code unit what one substitution would: no entity an earlier step wrote
    is escaped again by a later one. *)
Theorem escapeHtmlChain_escapeHtml value :
  escapeHtmlChain value = escapeHtml value.
Proof.
  induction value as [|c value IH]; [reflexivity|].
  change (c :: value) with ([c] ++ value).
  rewrite escapeHtmlChain_app escapeHtmlChain_unit IH. reflexivity.
Qed.

Lemma escapeUnit_safe c x :
  x ∈ escapeUnit c → x ≠ 60%N ∧ x ≠ 62%N ∧ x ≠ 34%N ∧ x ≠ 39%N.
Proof.
  unfold escapeUnit.
  destruct (N.eqb_spec c 38); [|destruct (N.eqb_spec c 60);
    [|destruct (N.eqb_spec c 62); [|destruct (N.eqb_spec c 34);
      [|destruct (N.eqb_spec c 39)]]]].
  1-5: intros Hin; apply list_elem_of_In in Hin; vm_compute in Hin;
       repeat destruct Hin as [<-|Hin]; try done.
  intros ->%list_elem_of_singleton. done.
Qed.

(** What leaves [escapeHtml] holds no angle bracket and no quote of either
    kind, whatever went in. *)
Theorem escapeHtml_safe value x :
  x ∈ escapeHtml value → x ≠ 60%N ∧ x ≠ 62%N ∧ x ≠ 34%N ∧ x ≠ 39%N.
Proof.
  unfold escapeHtml. intros (c & Hx & _)%list_elem_of_bind.
  by apply escapeUnit_safe in Hx.
Qed.

Lemma escapeHtml_safe_witness :
  38%N ∈ escapeHtml (lit "<") ∧
  38%N ≠ 60%N ∧ 38%N ≠ 62%N ∧ 38%N ≠ 34%N ∧ 38%N ≠ 39%N.
Proof.
  assert (38%N ∈ escapeHtml (lit "<")) as Hin
    by (apply (bool_decide_unpack _); vm_compute; exact I).
  split; [exact Hin|]. exact (escapeHtml_safe (lit "<") 38%N Hin).
Defined.

Lemma escapeUnit_cons c : ∃ x rest, escapeUnit c = x :: rest.
Proof.
  unfold escapeUnit.
  repeat match goal with
  | |- context [(c =? ?b)%N] => destruct (N.eqb_spec c b)
  end; eexists _, _; reflexivity.
Qed.

Lemma escapeUnit_prefix_free c d r1 r2 :
  escapeUnit c ++ r1 = escapeUnit d ++ r2 → c = d ∧ r1 = r2.
Proof.
  unfold escapeUnit.
  destruct (N.eqb_spec c 38); [|destruct (N.eqb_spec c 60);
    [|destruct (N.eqb_spec c 62); [|destruct (N.eqb_spec c 34);
      [|destruct (N.eqb_spec c 39)]]]];
  (destruct (N.eqb_spec d 38); [|destruct (N.eqb_spec d 60);
    [|destruct (N.eqb_spec d 62); [|destruct (N.eqb_spec d 34);
      [|destruct (N.eqb_spec d 39)]]]]);
  subst; cbn; intros [=]; subst; try done.
Qed.

(** Escaping loses nothing: two strings with the same escaped form are the
    same string. *)
Theorem escapeHtml_injective a b :
  escapeHtml a = escapeHtml b → a = b.
Proof.
  unfold escapeHtml. revert b.
  induction a as [|c a IH]; intros [|d b]; csimpl.
  - done.
  - destruct (escapeUnit_cons d) as (x & rest & ->). done.
  - destruct (escapeUnit_cons c) as (x & rest & ->). done.
  - intros [-> Hrest]%escapeUnit_prefix_free. f_equal. by apply IH.
Qed.

Lemma escapeHtml_injective_witness :
  escapeHtml (lit "a<b") = escapeHtml (lit "a<b") ∧ lit "a<b" = lit "a<b".
Proof.
  split; [reflexivity|].
  apply (escapeHtml_injective (lit "a<b") (lit "a<b")). reflexivity.
Defined.

(** ** Image renderer *)

Lemma not_elem_of_lit_app (x : N) (a b : jsstring) :
  x ∉ a → x ∉ b → x ∉ a ++ b.
Proof. intros Ha Hb [?|?]%elem_of_app; tauto. Qed.

Lemma quoted_escaped_no_bracket value :
  (60%N ∉ quoted (escapeHtml value)) ∧ (62%N ∉ quoted (escapeHtml value)).
Proof.
  unfold quoted. split.
  - intros [?|[Hin|?%list_elem_of_singleton]%elem_of_app]%elem_of_cons; try done.
    apply list_elem_of_bind in Hin as (c & Hin & _).
    by apply escapeUnit_safe in Hin as (? & _).
  - intros [?|[Hin|?%list_elem_of_singleton]%elem_of_app]%elem_of_cons; try done.
    apply list_elem_of_bind in Hin as (c & Hin & _).
    by apply escapeUnit_safe in Hin as (_ & ? & _).
Qed.

(** Whatever the token holds, the image tag stays one tag: its markup
    opens with the only [<] and ends with the only [>]. *)
Theorem renderImage_one_tag token :
  ∃ body,
    renderImage token = lit "<img " ++ body ++ lit ">" ∧
    (60%N ∉ body) ∧ (62%N ∉ body).
Proof.
  exists (join (lit " ") (imageAttributes token)). split; [reflexivity|].
  unfold imageAttributes.
  pose proof (quoted_escaped_no_bracket (from_option trim [] (href token))) as [Hs1 Hs2].
  pose proof (quoted_escaped_no_bracket (default [] (text token))) as [Ha1 Ha2].
  pose proof (quoted_escaped_no_bracket (default [] (title token))) as [Ht1 Ht2].
  assert (∀ x : N, (x = 60 ∨ x = 62)%N → ∀ name : string, x ∉ lit name →
            ∀ value, x ∉ quoted (escapeHtml value) →
            x ∉ lit name ++ quoted (escapeHtml value)) as Hattr.
  { intros x _ name Hname value Hvalue. by apply not_elem_of_lit_app. }
  case_decide; cbn -[escapeHtml quoted lit];
    split; repeat (apply not_elem_of_lit_app);
    try done; try (apply (bool_decide_unpack _); vm_compute; exact I).
Qed.

(** ** Trimming *)

Lemma trimStart_solid_head s c r : trimStart s = c :: r → isWhiteSpace c = false.
Proof.
  induction s as [|x s IH]; simpl; [done|].
  destruct (isWhiteSpace x) eqn:Hx; [done|]. by intros [= <- _].
Qed.

Lemma trimStart_snoc l c :
  isWhiteSpace c = false → trimStart (l ++ [c]) = trimStart l ++ [c].
Proof.
  intros Hc. induction l as [|x l IH]; simpl; [by rewrite Hc|].
  by destruct (isWhiteSpace x).
Qed.

Lemma trimEnd_cons c r :
  isWhiteSpace c = false → trimEnd (c :: r) = c :: trimEnd r.
Proof.
  intros Hc. unfold trimEnd.
  by rewrite reverse_cons trimStart_snoc // reverse_app.
Qed.

Lemma trim_cases s :
  trim s = match trimStart s with [] => [] | c :: r => c :: trimEnd r end.
Proof.
  unfold trim. destruct (trimStart s) as [|c r] eqn:Hs; [done|].
  apply trimEnd_cons. by apply trimStart_solid_head in Hs.
Qed.

Lemma trimStart_suffix s : ∃ blank, s = blank ++ trimStart s.
Proof.
  induction s as [|x s [blank IH]]; simpl; [by exists []|].
  destruct (isWhiteSpace x); [|by exists []].
  exists (x :: blank). simpl. by f_equal.
Qed.

Lemma trimStart_elem s x : x ∈ trimStart s → x ∈ s.
Proof.
  destruct (trimStart_suffix s) as [blank Hs]. intros Hx.
  rewrite Hs. apply elem_of_app. by right.
Qed.

Lemma trim_elem s x : x ∈ trim s → x ∈ s.
Proof.
  unfold trim, trimEnd. rewrite elem_of_reverse.
  intros Hx%trimStart_elem. rewrite elem_of_reverse in Hx.
  by apply trimStart_elem.
Qed.

Lemma trimStart_fixed s : trimStart (trimStart s) = trimStart s.
Proof.
  destruct (trimStart s) as [|c r] eqn:Hs; [done|].
  apply trimStart_solid_head in Hs. simpl. by rewrite Hs.
Qed.

Lemma trimEnd_fixed s : trimEnd (trimEnd s) = trimEnd s.
Proof. unfold trimEnd. by rewrite reverse_involutive trimStart_fixed. Qed.

(** A trimmed string is its own trimmed form. *)
Lemma trim_fixed s : trim (trim s) = trim s.
Proof.
  rewrite (trim_cases s). destruct (trimStart s) as [|c r] eqn:Hs; [done|].
  apply trimStart_solid_head in Hs.
  rewrite trim_cases. simpl. rewrite Hs. by rewrite trimEnd_fixed.
Qed.

(** A string with a unit that is not white space does not trim to
    nothing. *)
Lemma trim_nonempty s x : x ∈ s → isWhiteSpace x = false → trim s ≠ [].
Proof.
  intros Hx Hws. rewrite trim_cases.
  destruct (trimStart s) as [|c r] eqn:Hs; [|done].
  exfalso. destruct (trimStart_suffix s) as [blank Hblank].
  rewrite Hs app_nil_r in Hblank. subst blank.
  assert (forallb isWhiteSpace s = true) as Hall.
  { clear Hx. induction s as [|y s IH]; simpl in *; [done|].
    destruct (isWhiteSpace y); [by apply IH|done]. }
  rewrite forallb_forall in Hall. apply list_elem_of_In in Hx.
  by rewrite (Hall x Hx) in Hws.
Qed.

(** ** Language resolver, on Basic Latin tags *)

Lemma splitAux_elem inSep s piece x :
  piece ∈ splitAux inSep s → x ∈ piece → x ∈ s.
Proof.
  revert inSep piece. induction s as [|c s IH]; intros inSep piece; simpl.
  - intros ->%list_elem_of_singleton. done.
  - destruct (isWhiteSpace c).
    + destruct inSep.
      * intros Hp Hx. right. by eapply IH.
      * intros [->|Hp]%elem_of_cons Hx; [by apply elem_of_nil in Hx|].
        right. by eapply IH.
    + specialize (IH false). destruct (splitAux false s) as [|p ps].
      * intros ->%list_elem_of_singleton. rewrite list_elem_of_singleton.
        intros ->. by left.
      * intros [->|Hp]%elem_of_cons Hx.
        -- apply elem_of_cons in Hx as [->|Hx]; [by left|].
           right. eapply IH; [by left|done].
        -- right. eapply IH; [by right|done].
Qed.

Lemma splitAux_first inSep c s :
  isWhiteSpace c = false →
  ∃ piece rest, splitAux inSep (c :: s) = (c :: piece) :: rest.
Proof.
  intros Hc. simpl. rewrite Hc.
  destruct (splitAux false s) as [|p ps]; eauto.
Qed.

Lemma lowerBasicLatin_not_capital c :
  ((65 <=? lowerBasicLatin c) && (lowerBasicLatin c <=? 90))%N = false.
Proof.
  unfold lowerBasicLatin.
  destruct ((65 <=? c)%N && (c <=? 90)%N) eqn:Hu.
  - apply andb_true_iff in Hu as [H1%N.leb_le H2%N.leb_le].
    apply andb_false_iff. right. apply N.leb_gt. lia.
  - done.
Qed.

Lemma lowerBasicLatin_latin c :
  isBasicLatin c = true → isBasicLatin (lowerBasicLatin c) = true.
Proof.
  unfold lowerBasicLatin, isBasicLatin.
  destruct ((65 <=? c)%N && (c <=? 90)%N) eqn:Hu; [|done].
  apply andb_true_iff in Hu as [H1%N.leb_le H2%N.leb_le].
  intros _. apply N.ltb_lt. lia.
Qed.

Lemma lowerBasicLatin_canonical c :
  isCanonicalUnit c = true → lowerBasicLatin c = c.
Proof.
  unfold isCanonicalUnit, lowerBasicLatin.
  intros [_ H]%andb_true_iff. by apply negb_true_iff in H as ->.
Qed.

Lemma lower_canonical language :
  forallb isCanonicalUnit language = true → lowerBasicLatin <$> language = language.
Proof.
  induction language as [|c language IH]; [done|]. cbn [forallb].
  intros [Hc Hl]%andb_true_iff. rewrite fmap_cons.
  by rewrite lowerBasicLatin_canonical // IH.
Qed.

Lemma canonical_solid language :
  forallb isCanonicalUnit language = true →
  forallb (λ c, isBasicLatin c && negb (isWhiteSpace c)) language = true.
Proof.
  rewrite !forallb_forall. intros H c Hc. specialize (H c Hc).
  unfold isCanonicalUnit in H. by apply andb_true_iff in H as [? _].
Qed.

(** The methods of [Object.prototype] all have a capital in their name, so
    a canonical word can only meet [constructor] and [__proto__] there. *)
Lemma objectPrototypeGet_canonical language b :
  forallb isCanonicalUnit language = true →
  objectPrototypeGet language = Some b →
  (language = lit "constructor" ∧ b = ObjectFunction) ∨
  (language = lit "__proto__" ∧ b = ObjectPrototype).
Proof.
  intros Hcanon. unfold objectPrototypeGet.
  case_decide as H1; [intros [= <-]; by left|].
  case_decide as H2; [intros [= <-]; by right|].
  case_decide as H3; [|done]. exfalso.
  assert (Forall (λ name, forallb isCanonicalUnit name = false) prototypeMethods)
    as Hmethods by (repeat constructor).
  rewrite Forall_forall in Hmethods. by rewrite (Hmethods _ H3) in Hcanon.
Qed.

Lemma alias_target key language :
  CODE_LANGUAGE_ALIASES !! key = Some language → language ∈ aliasTargets.
Proof.
  unfold CODE_LANGUAGE_ALIASES. intros H%elem_of_list_to_map_2.
  apply list_elem_of_In in H. simpl in H.
  repeat destruct H as [[= <- <-]|H]; try done;
    apply (bool_decide_unpack _); vm_compute; exact I.
Qed.

Lemma aliasTargets_canonical language :
  language ∈ aliasTargets → isCanonical language.
Proof.
  intros H. apply list_elem_of_In in H. simpl in H.
  repeat destruct H as [<-|H]; try done; by split.
Qed.

Section ResolverOnBasicLatin.

Variable unicodeLower : jsstring → jsstring.

Lemma normalizeLanguage_latin s :
  forallb isBasicLatin s = true →
  normalizeLanguage unicodeLower (Some s) = VString (lit "plaintext") ∨
  ∃ token,
    isCanonical token ∧
    normalizeLanguage unicodeLower (Some s)
    = nullish (recordGet CODE_LANGUAGE_ALIASES token) (VString token).
Proof.
  intros Hlatin.
  assert (forallb isBasicLatin (trim s) = true) as Htrim.
  { rewrite !forallb_forall in Hlatin |- *. intros x Hx. apply Hlatin.
    by apply list_elem_of_In, trim_elem, list_elem_of_In. }
  unfold normalizeLanguage, toLowerCase. simpl. rewrite Htrim.
  destruct (decide (lowerBasicLatin <$> trim s = [])) as [|Hne]; [by left|right].
  destruct (trim s) as [|c r] eqn:Hs; [done|].
  assert (isWhiteSpace c = false) as Hc.
  { rewrite trim_cases in Hs. destruct (trimStart s) as [|c' r'] eqn:Hs'; [done|].
    injection Hs as -> _. by apply trimStart_solid_head in Hs'. }
  rewrite fmap_cons. unfold splitWhiteSpace.
  destruct (splitAux_first false (lowerBasicLatin c) (lowerBasicLatin <$> r))
    as (piece & rest & Hsplit); [by rewrite lowerBasicLatin_whiteSpace|].
  rewrite Hsplit. exists (lowerBasicLatin c :: piece). split; [|done].
  split; [done|]. apply forallb_forall. intros x Hx%list_elem_of_In.
  pose proof (splitAux_pieces false (lowerBasicLatin c :: (lowerBasicLatin <$> r)))
    as Hsolid.
  rewrite Hsplit in Hsolid. apply Forall_cons in Hsolid as [Hsolid _].
  rewrite forallb_forall in Hsolid.
  assert (x ∈ lowerBasicLatin c :: (lowerBasicLatin <$> r)) as Hin.
  { eapply (splitAux_elem false); [|done]. rewrite Hsplit. by left. }
  rewrite -fmap_cons in Hin. apply list_elem_of_fmap in Hin as (y & -> & Hy).
  unfold isCanonicalUnit. rewrite lowerBasicLatin_not_capital.
  rewrite forallb_forall in Htrim.
  rewrite lowerBasicLatin_latin; [|by apply Htrim, list_elem_of_In].
  rewrite (Hsolid _ (proj1 (list_elem_of_In _ _) Hx)). done.
Qed.

Lemma normalizeLanguage_latin_cases s :
  forallb isBasicLatin s = true →
  (∃ language,
     normalizeLanguage unicodeLower (Some s) = VString language ∧
     isCanonical language ∧
     (language ∈ aliasTargets ∨
      CODE_LANGUAGE_ALIASES !! language = None ∧
      objectPrototypeGet language = None)) ∨
  normalizeLanguage unicodeLower (Some s) = VBuiltin ObjectFunction ∨
  normalizeLanguage unicodeLower (Some s) = VBuiltin ObjectPrototype.
Proof.
  intros Hlatin.
  destruct (normalizeLanguage_latin s Hlatin) as [->|(token & Hcanon & ->)].
  { left. exists (lit "plaintext"). split; [done|]. split; [by split|].
    left. apply (bool_decide_unpack _). vm_compute. exact I. }
  unfold recordGet.
  destruct (CODE_LANGUAGE_ALIASES !! token) as [language|] eqn:Halias.
  { left. exists language. apply alias_target in Halias.
    split; [done|]. split; [by apply aliasTargets_canonical|by left]. }
  destruct (objectPrototypeGet token) as [b|] eqn:Hproto.
  - right. destruct Hcanon as [_ Hcanon].
    destruct (objectPrototypeGet_canonical _ _ Hcanon Hproto) as [[_ ->]|[_ ->]];
      [by left|by right].
  - left. exists token. split; [done|]. split; [done|]. by right.
Qed.

(** On a Basic Latin tag the resolver answers with a canonical language, a
    non-empty word without capitals or white space, unless the read of the
    alias object runs into [constructor] or [__proto__]; it never answers
    [undefined] and never with the empty string. *)
Theorem normalizeLanguage_canonical s :
  forallb isBasicLatin s = true →
  (∃ language,
     normalizeLanguage unicodeLower (Some s) = VString language ∧
     isCanonical language) ∨
  normalizeLanguage unicodeLower (Some s) = VBuiltin ObjectFunction ∨
  normalizeLanguage unicodeLower (Some s) = VBuiltin ObjectPrototype.
Proof.
  intros Hlatin.
  destruct (normalizeLanguage_latin_cases s Hlatin)
    as [(language & Hl & Hcanon & _)|H]; [left; eauto|by right].
Qed.

(** A canonical language is a fixed point of the resolver: resolving what
    the resolver answered gives the same answer. *)
Theorem normalizeLanguage_idempotent s language :
  forallb isBasicLatin s = true →
  normalizeLanguage unicodeLower (Some s) = VString language →
  normalizeLanguage unicodeLower (Some language) = VString language.
Proof.
  intros Hlatin Hs.
  destruct (normalizeLanguage_latin_cases s Hlatin)
    as [(language' & Hl & [Hne Hcanon] & Hkind)|[H|H]];
    rewrite Hs in Hl || rewrite Hs in H; try done.
  injection Hl as <-. destruct Hkind as [Htarget|[Halias Hproto]].
  - apply list_elem_of_In in Htarget. simpl in Htarget.
    repeat destruct Htarget as [<-|Htarget]; try done; vm_compute; reflexivity.
  - rewrite -{2}(lower_canonical language Hcanon).
    apply normalizeLanguage_unknown; rewrite ?lower_canonical //.
    by apply canonical_solid.
Qed.

End ResolverOnBasicLatin.

Lemma normalizeLanguage_canonical_witness :
  forallb isBasicLatin (lit " Rust,ignore x") = true ∧
  ((∃ language,
      normalizeLanguage (λ s, s) (Some (lit " Rust,ignore x")) = VString language ∧
      isCanonical language) ∨
   normalizeLanguage (λ s, s) (Some (lit " Rust,ignore x")) = VBuiltin ObjectFunction ∨
   normalizeLanguage (λ s, s) (Some (lit " Rust,ignore x")) = VBuiltin ObjectPrototype).
Proof.
  split; [reflexivity|].
  apply (normalizeLanguage_canonical (λ s, s) (lit " Rust,ignore x")). reflexivity.
Defined.

Lemma normalizeLanguage_idempotent_witness :
  forallb isBasicLatin (lit "SH -e") = true ∧
  normalizeLanguage (λ s, s) (Some (lit "SH -e")) = VString (lit "bash") ∧
  normalizeLanguage (λ s, s) (Some (lit "bash")) = VString (lit "bash").
Proof.
  split; [reflexivity|]. split; [vm_compute; reflexivity|].
  apply (normalizeLanguage_idempotent (λ s, s) (lit "SH -e") (lit "bash"));
    [reflexivity|vm_compute; reflexivity].
Defined.

(** ** Labels *)

(** The label routine returns on every string, and what it returns is never
    the empty label: a language without a preset that formats to nothing
    gets the label of [plaintext]. *)
Theorem getLanguageLabel_never_empty language :
  ∃ label, getLanguageLabel (VString language) = Normal label ∧ truthy label = true.
Proof.
  unfold getLanguageLabel.
  destruct (truthy (recordGet LANGUAGE_LABELS language)) eqn:Hpreset; [eauto|].
  case_decide as Hlen; [|by eexists].
  eexists. split; [done|]. simpl.
  destruct (capitalizeWords _ _); [simpl in Hlen; lia|done].
Qed.

Lemma getLanguageLabel_string language :
  objectPrototypeGet language = None ∨ is_Some (LANGUAGE_LABELS !! language) →
  ∃ label, getLanguageLabel (VString language) = Normal (VString label).
Proof.
  intros H. unfold getLanguageLabel.
  assert (∃ formatted,
            (if decide (0 < length (capitalizeWords false (replaceSeparators false language)))
             then VString (capitalizeWords false (replaceSeparators false language))
             else nullish (recordGet LANGUAGE_LABELS (lit "plaintext"))
                    (VString (lit "Plain Text")))
            = VString formatted) as [formatted ->].
  { case_decide; by eexists. }
  unfold recordGet.
  destruct (LANGUAGE_LABELS !! language) as [preset|] eqn:Hown.
  - simpl. destruct (negb _); by eexists.
  - destruct H as [-> | [? [=]]]. simpl. by eexists.
Qed.

(** ** Code renderer *)

Lemma aliasTargets_labelled language :
  language ∈ aliasTargets → is_Some (LANGUAGE_LABELS !! language).
Proof.
  intros H. apply list_elem_of_In in H. simpl in H.
  repeat destruct H as [<-|H]; try done; by eexists.
Qed.

Lemma getHighlightedCode_plaintext getLanguage highlight source :
  getHighlightedCode getLanguage highlight source (lit "plaintext") = None.
Proof.
  unfold getHighlightedCode. destruct (decide (source = [])); [done|].
  destruct (decide (lit "plaintext" = [] ∨ lit "plaintext" = lit "plaintext"))
    as [|Hn]; [done|]. destruct Hn. by right.
Qed.

Section CodeRendererProperties.

Variable unicodeLower : jsstring → jsstring.
Variable getLanguage : jsstring → bool.
Variable highlight : jsstring → jsstring → Completion jsstring.

(** The code renderer throws on a fence exactly when the resolver hands it
    something that is not a string; on every other Basic Latin tag, and on
    a fence without a tag, it returns markup, whatever the highlighter
    does. *)
Theorem renderCode_throws token :
  from_option (forallb isBasicLatin) true (Code.lang token) = true →
  renderCode unicodeLower getLanguage highlight token = Throw ↔
  ∃ b, normalizeLanguage unicodeLower (Code.lang token) = VBuiltin b.
Proof.
  intros Hlatin. unfold renderCode.
  assert ((∃ language,
             normalizeLanguage unicodeLower (Code.lang token) = VString language ∧
             ∃ label, getLanguageLabel (VString language) = Normal (VString label)) ∨
          ∃ b, normalizeLanguage unicodeLower (Code.lang token) = VBuiltin b)
    as [(language & -> & label & ->)|[b Hb]].
  { destruct (Code.lang token) as [s|]; simpl in Hlatin.
    - destruct (normalizeLanguage_latin_cases unicodeLower s Hlatin)
        as [(language & -> & _ & Hkind)|[->| ->]]; [left|right; eauto..].
      exists language. split; [done|]. apply getLanguageLabel_string.
      destruct Hkind as [Htarget|[_ Hproto]];
        [right; by apply aliasTargets_labelled|by left].
    - left. exists (lit "plaintext"). split; [done|]. by eexists. }
  - simpl. split; [done|]. by intros [b [=]].
  - rewrite Hb. simpl. split; [eauto|done].
Qed.

(** A fence that resolves to [plaintext] (no tag, a blank tag, [text],
    [plaintext]) is rendered without the highlighter: the markup is the
    same under every registry and every highlighter. *)
Theorem renderCode_plaintext getLanguage' highlight' token :
  normalizeLanguage unicodeLower (Code.lang token) = VString (lit "plaintext") →
  renderCode unicodeLower getLanguage highlight token
  = renderCode unicodeLower getLanguage' highlight' token ∧
  renderCode unicodeLower getLanguage highlight token ≠ Throw.
Proof.
  intros H. unfold renderCode. rewrite H.
  assert (getLanguageLabel (VString (lit "plaintext"))
          = Normal (VString (lit "Plain Text"))) as -> by (vm_compute; reflexivity).
  cbn [escapeHtmlValue]. by rewrite !getHighlightedCode_plaintext.
Qed.

End CodeRendererProperties.

Lemma renderCode_throws_witness :
  from_option (forallb isBasicLatin) true (Some (lit "constructor")) = true ∧
  (renderCode (λ s, s) (λ _, true) (λ s _, Normal s)
     {| Code.text := Some (lit "x"); Code.lang := Some (lit "constructor") |}
   = Throw ↔
   ∃ b, normalizeLanguage (λ s, s) (Some (lit "constructor")) = VBuiltin b).
Proof.
  split; [reflexivity|].
  apply (renderCode_throws (λ s, s) (λ _, true) (λ s _, Normal s)
           {| Code.text := Some (lit "x"); Code.lang := Some (lit "constructor") |}).
  reflexivity.
Defined.

Lemma renderCode_plaintext_witness :
  normalizeLanguage (λ s, s) (Some (lit "Text")) = VString (lit "plaintext") ∧
  renderCode (λ s, s) (λ _, true) (λ s _, Normal s)
    {| Code.text := Some (lit "a<b"); Code.lang := Some (lit "Text") |}
  = renderCode (λ s, s) (λ _, false) (λ _ _, Throw)
      {| Code.text := Some (lit "a<b"); Code.lang := Some (lit "Text") |} ∧
  renderCode (λ s, s) (λ _, true) (λ s _, Normal s)
    {| Code.text := Some (lit "a<b"); Code.lang := Some (lit "Text") |} ≠ Throw.
Proof.
  split; [vm_compute; reflexivity|].
  apply (renderCode_plaintext (λ s, s) (λ _, true) (λ s _, Normal s)
           (λ _, false) (λ _ _, Throw)
           {| Code.text := Some (lit "a<b"); Code.lang := Some (lit "Text") |}).
  vm_compute. reflexivity.
Defined.

(** ** Definition-list extension: what a match looks like *)

Lemma leadingSpaces_bound s : leadingSpaces s ≤ length s.
Proof. induction s as [|c s IH]; simpl; [done|]. destruct (c =? SPACE)%N; lia. Qed.

Lemma leadingNewlines_bound s : leadingNewlines s ≤ length s.
Proof. induction s as [|c s IH]; simpl; [done|]. destruct (c =? LF)%N; lia. Qed.

Lemma lineOf_bound s : length (lineOf s) ≤ length s.
Proof. induction s as [|c s IH]; simpl; [done|]. destruct (c =? LF)%N; simpl; lia. Qed.

Lemma dotRun_bound s : length (dotRun s) ≤ length s.
Proof.
  induction s as [|c s IH]; simpl; [done|]. destruct (isLineTerminator c); simpl; lia.
Qed.

(** The rest of a line is followed by a line feed or by nothing. *)
Lemma lineOf_rest s :
  drop (length (lineOf s)) s = [] ∨ ∃ rest, drop (length (lineOf s)) s = LF :: rest.
Proof.
  induction s as [|c s IH]; simpl; [by left|].
  destruct (N.eqb_spec c LF) as [->|]; simpl; [right; eauto|done].
Qed.

Lemma matchTerm_bound s termContent len :
  matchTerm s = Some (termContent, len) → len ≤ length s.
Proof.
  unfold matchTerm. destruct (drop (_ `min` _) s); [done|].
  destruct (_ && _); [|done].
  pose proof (lineOf_bound s) as Hline.
  destruct (drop (length (lineOf s)) s) eqn:Hd; intros [= <- <-]; [done|].
  destruct (decide (length (lineOf s) < length s)) as [|Hge]; [lia|].
  rewrite drop_ge in Hd; [done|lia].
Qed.

Lemma matchDefinition_bound s group1 len :
  matchDefinition s = Some (group1, len) → len ≤ length s.
Proof.
  unfold matchDefinition. case_decide; [|done].
  destruct (drop (leadingSpaces s) s) as [|c [|w rest]] eqn:Hd; try done.
  destruct (_ && _); [|done].
  assert (length s = leadingSpaces s + (2 + length rest)) as Hlen.
  { pose proof (leadingSpaces_bound s).
    apply (f_equal length) in Hd. rewrite length_drop in Hd. simpl in Hd. lia. }
  pose proof (dotRun_bound rest).
  destruct (drop (leadingSpaces s + 2 + length (dotRun rest)) s) as [|d l] eqn:Hn;
    [intros [= <- <-]; lia|].
  destruct (d =? LF)%N; [|done]. intros [= <- <-].
  destruct (decide (leadingSpaces s + 2 + length (dotRun rest) < length s))
    as [|Hge]; [lia|].
  rewrite drop_ge in Hn; [done|lia].
Qed.

(** A term holds text: a unit that is not white space. *)
Lemma matchTerm_text s termContent len :
  matchTerm s = Some (termContent, len) →
  termContent = lineOf s ∧ ∃ x, x ∈ termContent ∧ isWhiteSpace x = false.
Proof.
  unfold matchTerm.
  destruct (drop (leadingSpaces s `min` 3) s) as [|c rest] eqn:Hd; [done|].
  destruct (negb (c =? COLON)%N && negb (isWhiteSpace c)) eqn:Hc; [|done].
  apply andb_true_iff in Hc as [_ Hc%negb_true_iff].
  intros Hm. assert (termContent = lineOf s) as ->
    by (destruct (drop (length (lineOf s)) s); by injection Hm as <- _).
  split; [done|]. exists c. split; [|done]. clear Hm.
  assert (∀ n s, n ≤ leadingSpaces s → drop n s = c :: rest → c ∈ lineOf s) as Hin.
  { clear s Hd. intros n. induction n as [|n IH]; intros s Hn Hd.
    - rewrite drop_0 in Hd. subst s. simpl.
      destruct (N.eqb_spec c LF) as [->|]; [done|by left].
    - destruct s as [|x s]; [done|]. simpl in Hn, Hd |- *.
      destruct (N.eqb_spec x SPACE) as [->|]; [|lia].
      simpl. right. apply (IH s); [lia|done]. }
  apply (Hin (leadingSpaces s `min` 3)); [lia|done].
Qed.

Section TokenizerProperties.

Variable TokenList : Type.
Variable inlineTokens : jsstring → TokenList.

(** Every exit of the outer loop leaves the state it found or the state
    after one more entry: what holds at the start and survives a new entry
    holds at the end. *)
Lemma itemLoop_invariant
    (Inv : list (DefinitionListItem TokenList) → nat → nat → Prop) src :
  (∀ its position lastPosition termContent len position' descs,
     Inv its position lastPosition →
     position < length src →
     matchTerm (drop position src) = Some (termContent, len) →
     definitionLoop inlineTokens (length src) src (position + len) [] false
     = (position', descs, true) →
     Inv (its ++ [{| term := inlineTokens (trim termContent);
                     descriptions := descs |}])
       (position' + leadingNewlines (drop position' src))
       (position' + leadingNewlines (drop position' src))) →
  ∀ fuel its position lastPosition,
    Inv its position lastPosition →
    Inv (itemLoop inlineTokens fuel src its position lastPosition).1.1
        (itemLoop inlineTokens fuel src its position lastPosition).1.2
        (itemLoop inlineTokens fuel src its position lastPosition).2.
Proof.
  intros Hstep fuel.
  induction fuel as [|fuel IH]; intros its position lastPosition HInv; simpl; [done|].
  case_decide as Hlt; [|done].
  destruct (_ || _); [done|].
  destruct (matchTerm _) as [[termContent len]|] eqn:Hterm; [|done].
  destruct (definitionLoop _ _ _ _ _ _) as [[position' descs] hasDefinition] eqn:Hdefs.
  destruct hasDefinition; simpl; [|done].
  pose proof (Hstep _ _ _ _ _ _ _ HInv Hlt Hterm Hdefs) as HInv'.
  destruct (negb _); [done|]. by apply IH.
Qed.

Lemma definitionLoop_bounded fuel src position descs hasDefinition :
  position ≤ length src →
  (definitionLoop inlineTokens fuel src position descs hasDefinition).1.1
  ≤ length src.
Proof.
  revert position descs hasDefinition.
  induction fuel as [|fuel IH]; intros position descs hasDefinition Hle; simpl; [done|].
  case_decide; [|done].
  destruct (matchDefinition _) as [[group1 len]|] eqn:Hm; [|done].
  apply IH. apply matchDefinition_bound in Hm. rewrite length_drop in Hm. lia.
Qed.

(** The inner loop reports a definition exactly when its first try at the
    pattern succeeds. *)
Lemma definitionLoop_keeps fuel src position descs :
  (definitionLoop inlineTokens fuel src position descs true).2 = true.
Proof.
  revert position descs.
  induction fuel as [|fuel IH]; intros position descs; simpl; [done|].
  case_decide; [|done]. destruct (matchDefinition _) as [[group1 len]|]; [|done].
  apply IH.
Qed.

Lemma definitionLoop_found fuel src position :
  (definitionLoop inlineTokens fuel src position [] false).2 = true ↔
  0 < fuel ∧ position < length src ∧ is_Some (matchDefinition (drop position src)).
Proof.
  destruct fuel as [|fuel]; simpl; [split; [done|lia]|].
  case_decide as Hlt; [|split; [done|intros (_ & ? & _); lia]].
  destruct (matchDefinition _) as [[group1 len]|]; simpl.
  - rewrite definitionLoop_keeps. split; [|done]. intros _. split; [lia|]. eauto.
  - split; [done|]. by intros (_ & _ & [? [=]]).
Qed.

(** The entries only grow. *)
Lemma itemLoop_grows fuel src its position lastPosition :
  its `prefix_of` (itemLoop inlineTokens fuel src its position lastPosition).1.1.
Proof.
  apply (itemLoop_invariant (λ its' _ _, its `prefix_of` its')); [|done].
  intros its' _ _ termContent len _ descs Hpre _ _ _.
  etrans; [done|]. by apply prefix_app_r.
Qed.

Lemma tokenizer_head src :
  is_Some (tokenizer inlineTokens src) ↔
  ∃ termContent len,
    matchTerm src = Some (termContent, len) ∧
    is_Some (matchDefinition (drop len src)).
Proof.
  unfold tokenizer, tokenizerWith.
  destruct src as [|c src]; [split; [by intros [? [=]]|by intros (? & ? & [=] & _)]|].
  cbn [length itemLoop].
  destruct (decide (0 < S (length src))) as [_|?]; [|lia].
  rewrite drop_0. rewrite bool_decide_eq_false_2; [|done]. cbn [orb].
  destruct (startsWith [LF; LF] (c :: src)) eqn:Hblank.
  { split; [by intros [? [=]]|]. intros (t & len & Hterm & _).
    apply matchTerm_not_blank in Hterm. congruence. }
  destruct (matchTerm (c :: src)) as [[termContent len]|] eqn:Hterm;
    [|split; [by intros [? [=]]|by intros (? & ? & [=] & _)]].
  change (0 + len) with len.
  pose proof (definitionLoop_found (S (length src)) (c :: src) len) as Hfound.
  destruct (definitionLoop _ _ _ _ _ _) as [[position' descs] hasDefinition] eqn:Hdefs.
  simpl in Hfound. destruct hasDefinition; simpl.
  - apply proj1 in Hfound. destruct (Hfound eq_refl) as (_ & _ & Hdef).
    split; [eauto|]. intros _.
    set (its := [] ++ [{| term := inlineTokens (trim termContent);
                          descriptions := descs |}]).
    assert (∀ st : list (DefinitionListItem TokenList) * nat * nat,
              its `prefix_of` st.1.1 → is_Some (tokenOf (c :: src) st)) as Hsome.
    { intros [[its' p] lp] [k Hk]. simpl in Hk. subst its'. by eexists. }
    destruct (negb _); [by apply Hsome|]. apply Hsome, itemLoop_grows.
  - split; [by intros [? [=]]|]. intros (t & len' & [= <- <-] & Hdef).
    apply proj2 in Hfound. exfalso.
    assert (len < length (c :: src)) as Hlen.
    { destruct (decide (len < length (c :: src))) as [|Hge]; [done|].
      rewrite drop_ge in Hdef; [|lia]. by destruct Hdef as [? [=]]. }
    simpl in Hlen. assert (false = true) as [=]. apply Hfound.
    split; [lia|]. by split.
Qed.

(** The tokenizer matches exactly where a term line is followed at once by
    a definition line. *)
Theorem tokenizer_matches src :
  is_Some (tokenizer inlineTokens src) ↔
  ∃ termContent len,
    matchTerm src = Some (termContent, len) ∧
    is_Some (matchDefinition (drop len src)).
Proof. apply tokenizer_head. Qed.

Lemma itemLoop_positions fuel src its position lastPosition :
  position ≤ length src ∧ lastPosition ≤ length src ∧ (its ≠ [] → 0 < lastPosition) →
  (itemLoop inlineTokens fuel src its position lastPosition).1.2 ≤ length src ∧
  (itemLoop inlineTokens fuel src its position lastPosition).2 ≤ length src ∧
  ((itemLoop inlineTokens fuel src its position lastPosition).1.1 ≠ [] →
   0 < (itemLoop inlineTokens fuel src its position lastPosition).2).
Proof.
  apply (itemLoop_invariant
    (λ its position lastPosition,
       position ≤ length src ∧ lastPosition ≤ length src ∧
       (its ≠ [] → 0 < lastPosition))).
  clear. intros its position lastPosition termContent len position' descs
    (Hp & Hlp & _) Hlt Hterm Hdefs.
  pose proof (definitionLoop_bounded (length src) src (position + len) [] false) as Hb.
  pose proof (definitionLoop_position TokenList inlineTokens
                (length src) src (position + len) [] false) as Hge.
  rewrite Hdefs in Hb, Hge. simpl in Hb, Hge.
  pose proof (matchTerm_bound _ _ _ Hterm) as Hlen.
  pose proof (matchTerm_progress _ _ _ Hterm) as Hpos.
  rewrite length_drop in Hlen.
  pose proof (leadingNewlines_bound (drop position' src)) as Hnl.
  rewrite length_drop in Hnl.
  assert (position' ≤ length src) by (apply Hb; lia).
  split; [lia|]. split; [lia|]. intros _. lia.
Qed.

(** What the tokenizer hands back as consumed is a non-empty prefix of the
    source: the lexer that called it always moves forward. *)
Theorem tokenizer_raw src token :
  tokenizer inlineTokens src = Some token →
  raw token ≠ [] ∧ raw token `prefix_of` src.
Proof.
  unfold tokenizer, tokenizerWith.
  pose proof (itemLoop_positions (length src) src [] 0 0) as Hinv.
  destruct (itemLoop _ _ _ _ _ _) as [[its position] lastPosition].
  simpl in Hinv. destruct Hinv as (_ & Hlp & Hpos); [by repeat split; try lia|].
  simpl. destruct its as [|item its]; [done|]. intros [= <-]. simpl.
  specialize (Hpos ltac:(done)).
  destruct (decide (0 < lastPosition)) as [_|?]; [|lia].
  split; [|apply prefix_take].
  intros Hnil%(f_equal length). rewrite length_take in Hnil. simpl in Hnil. lia.
Qed.

Lemma matches_startPattern src termContent len :
  matchTerm src = Some (termContent, len) →
  is_Some (matchDefinition (drop len src)) →
  startPattern src = true.
Proof.
  unfold matchTerm, startPattern.
  destruct (drop (leadingSpaces src `min` 3) src) as [|c rest]; [done|].
  destruct (negb (c =? COLON)%N && negb (isWhiteSpace c)); [|done].
  destruct (drop (length (lineOf src)) src) as [|x next] eqn:Hline.
  - intros [= _ <-]. rewrite Hline. by intros [? [=]].
  - intros [= _ <-].
    assert (drop (S (length (lineOf src))) src = next) as ->.
    { replace (S (length (lineOf src))) with (length (lineOf src) + 1) by lia.
      by rewrite -drop_drop Hline. }
    unfold matchDefinition. intros [result Hdef].
    destruct (decide (leadingSpaces next ≤ 3)) as [Hk|]; [|done].
    rewrite (bool_decide_eq_true_2 _ Hk).
    destruct (drop (leadingSpaces next) next) as [|c' [|w rest']]; try done.
    by destruct ((c' =? COLON)%N && isWhiteSpace w).
Qed.

(** Where the tokenizer matches, the start hint of the extension points:
    a source the tokenizer accepts has its first possible start at index
    0, so the lexer never skips over a definition list it could have
    consumed. *)
Theorem tokenizer_start src token :
  tokenizer inlineTokens src = Some token → start src = Some 0.
Proof.
  intros Htoken.
  destruct (proj1 (tokenizer_head src)) as (termContent & len & Hterm & Hdef);
    [by eexists|].
  pose proof (matches_startPattern _ _ _ Hterm Hdef) as Hstart.
  unfold start. destruct src as [|c src]; [done|].
  cbn [startScan andb]. by rewrite Hstart.
Qed.

Lemma definitionLoop_trimmed fuel src position descs hasDefinition :
  Forall (λ description, ∃ text, description = inlineTokens text ∧ trim text = text)
    descs →
  Forall (λ description, ∃ text, description = inlineTokens text ∧ trim text = text)
    (definitionLoop inlineTokens fuel src position descs hasDefinition).1.2.
Proof.
  revert position descs hasDefinition.
  induction fuel as [|fuel IH]; intros position descs hasDefinition Hall; simpl; [done|].
  case_decide; [|done].
  destruct (matchDefinition _) as [[group1 len]|]; [|done].
  apply IH, Forall_app. split; [done|]. apply Forall_singleton.
  eexists. split; [done|]. apply trim_fixed.
Qed.

(** The text of every term reaches the inline lexer trimmed and is never
    empty; the text of every description reaches it trimmed. *)
Theorem tokenizer_texts src token :
  tokenizer inlineTokens src = Some token →
  Forall
    (λ item,
       (∃ text, term item = inlineTokens text ∧ text ≠ [] ∧ trim text = text) ∧
       Forall (λ description,
                 ∃ text, description = inlineTokens text ∧ trim text = text)
         (descriptions item))
    (items token).
Proof.
  unfold tokenizer, tokenizerWith.
  pose proof (itemLoop_invariant
    (λ its _ _,
       Forall
         (λ item,
            (∃ text, term item = inlineTokens text ∧ text ≠ [] ∧ trim text = text) ∧
            Forall (λ description,
                      ∃ text, description = inlineTokens text ∧ trim text = text)
              (descriptions item)) its) src) as Hinv.
  assert (Hstep : ∀ (its : list (DefinitionListItem TokenList))
            (position lastPosition : nat) (termContent : jsstring)
            (len position' : nat) (descs : list TokenList),
            Forall
              (λ item,
                 (∃ text, term item = inlineTokens text ∧ text ≠ [] ∧ trim text = text) ∧
                 Forall (λ description,
                           ∃ text, description = inlineTokens text ∧ trim text = text)
                   (descriptions item)) its →
            position < length src →
            matchTerm (drop position src) = Some (termContent, len) →
            definitionLoop inlineTokens (length src) src (position + len) [] false
            = (position', descs, true) →
            Forall
              (λ item,
                 (∃ text, term item = inlineTokens text ∧ text ≠ [] ∧ trim text = text) ∧
                 Forall (λ description,
                           ∃ text, description = inlineTokens text ∧ trim text = text)
                   (descriptions item))
              (its ++ [{| term := inlineTokens (trim termContent);
                          descriptions := descs |}])).
  { intros its position lastPosition termContent len position' descs
      Hits _ Hterm Hdefs.
    apply Forall_app. split; [done|]. apply Forall_singleton. simpl. split.
    - exists (trim termContent). split; [done|]. split; [|apply trim_fixed].
      destruct (matchTerm_text _ _ _ Hterm) as (_ & x & Hx & Hws).
      by eapply trim_nonempty.
    - pose proof (definitionLoop_trimmed (length src) src (position + len) [] false
                    (Forall_nil_2 _)) as Hd.
      by rewrite Hdefs in Hd. }
  specialize (Hinv Hstep (length src) [] 0 0 (Forall_nil_2 _)).
  destruct (itemLoop _ _ _ _ _ _) as [[its position] lastPosition].
  simpl in *. destruct its as [|item its]; [done|]. by intros [= <-].
Qed.

End TokenizerProperties.

Lemma tokenizer_raw_witness :
  tokenizer (λ s : jsstring, s) sampleDefinitionList
  = Some {| raw := sampleDefinitionList;
            items := [ {| term := lit "Term";
                          descriptions := [lit "First def"; lit "Second def"] |} ] |} ∧
  sampleDefinitionList ≠ [] ∧
  sampleDefinitionList `prefix_of` sampleDefinitionList.
Proof.
  assert (tokenizer (λ s : jsstring, s) sampleDefinitionList
          = Some {| raw := sampleDefinitionList;
                    items := [ {| term := lit "Term";
                                  descriptions := [lit "First def"; lit "Second def"] |} ] |})
    as Htoken by (vm_compute; reflexivity).
  split; [exact Htoken|].
  exact (tokenizer_raw jsstring (λ s, s) sampleDefinitionList _ Htoken).
Defined.

Lemma tokenizer_start_witness :
  tokenizer (λ s : jsstring, s) sampleDefinitionList
  = Some {| raw := sampleDefinitionList;
            items := [ {| term := lit "Term";
                          descriptions := [lit "First def"; lit "Second def"] |} ] |} ∧
  start sampleDefinitionList = Some 0.
Proof.
  assert (tokenizer (λ s : jsstring, s) sampleDefinitionList
          = Some {| raw := sampleDefinitionList;
                    items := [ {| term := lit "Term";
                                  descriptions := [lit "First def"; lit "Second def"] |} ] |})
    as Htoken by (vm_compute; reflexivity).
  split; [exact Htoken|].
  exact (tokenizer_start jsstring (λ s, s) sampleDefinitionList _ Htoken).
Defined.

Lemma tokenizer_texts_witness :
  tokenizer (λ s : jsstring, s) sampleDefinitionList
  = Some {| raw := sampleDefinitionList;
            items := [ {| term := lit "Term";
                          descriptions := [lit "First def"; lit "Second def"] |} ] |} ∧
  Forall
    (λ item : DefinitionListItem jsstring,
       (∃ text, term item = text ∧ text ≠ [] ∧ trim text = text) ∧
       Forall (λ description, ∃ text, description = text ∧ trim text = text)
         (descriptions item))
    [ {| term := lit "Term";
         descriptions := [lit "First def"; lit "Second def"] |} ].
Proof.
  assert (tokenizer (λ s : jsstring, s) sampleDefinitionList
          = Some {| raw := sampleDefinitionList;
                    items := [ {| term := lit "Term";
                                  descriptions := [lit "First def"; lit "Second def"] |} ] |})
    as Htoken by (vm_compute; reflexivity).
  split; [exact Htoken|].
  exact (tokenizer_texts jsstring (λ s, s) sampleDefinitionList _ Htoken).
Defined.

(** ** Entry point: nothing leaves unsanitized *)

(** Whatever the entry point returns is the empty string of a blank input,
    returned before any call, or the very string the sanitizer returned for
    what the parser produced (the empty string, when the parser did not
    produce a string): no markup comes back that the sanitizer has not
    seen. *)
Theorem renderMarkdown_sanitized
    (parse : jsstring → Completion (option jsstring))
    (sanitizeHtml : jsstring → Completion jsstring) input calls out :
  renderMarkdown parse sanitizeHtml input = (calls, Normal out) →
  (calls = [] ∧ out = []) ∨
  ∃ source parsed,
    input = InString source ∧
    parse source = Normal parsed ∧
    calls = [CallParse source; CallSanitize (default [] parsed)] ∧
    sanitizeHtml (default [] parsed) = Normal out.
Proof.
  unfold renderMarkdown.
  destruct (decide (trim _ = [])) as [|Hne]; [intros [= <- <-]; by left|].
  destruct input as [| |source|]; [done..| |done].
  unfold bind, call. destruct (parse source) as [parsed|] eqn:Hparse; [|done].
  intros [= <- Hout]. right. by exists source, parsed.
Qed.

Lemma renderMarkdown_sanitized_witness :
  renderMarkdown (λ s, Normal (Some (lit "<p>" ++ s))) (λ h, Normal (h ++ lit "!"))
    (InString (lit "x"))
  = ([CallParse (lit "x"); CallSanitize (lit "<p>x")], Normal (lit "<p>x!")) ∧
  (([CallParse (lit "x"); CallSanitize (lit "<p>x")] = [] ∧ lit "<p>x!" = []) ∨
   ∃ source parsed,
     InString (lit "x") = InString source ∧
     Normal (Some (lit "<p>" ++ source)) = Normal parsed ∧
     [CallParse (lit "x"); CallSanitize (lit "<p>x")]
     = [CallParse source; CallSanitize (default [] parsed)] ∧
     Normal (default [] parsed ++ lit "!") = Normal (lit "<p>x!")).
Proof.
  split; [reflexivity|].
  apply (renderMarkdown_sanitized
           (λ s, Normal (Some (lit "<p>" ++ s))) (λ h, Normal (h ++ lit "!"))
           (InString (lit "x"))).
  reflexivity.
Defined.

(** ** Anchor transform, on its own *)

Lemma attrSet_lookup attribs name value i k v :
  attribs !! i = Some (k, v) → k ≠ name →
  attrSet attribs name value !! i = Some (k, v).
Proof.
  revert i. induction attribs as [|[k' v'] attribs IH]; intros i; [done|].
  simpl. destruct i as [|i]; simpl.
  - intros [= -> ->] Hne. by destruct (decide (k = name)).
  - intros Hi Hne. destruct (decide (k' = name)); simpl; [done|]. by apply IH.
Qed.

Lemma attrSet_length attribs name value :
  length attribs ≤ length (attrSet attribs name value) ≤ S (length attribs).
Proof.
  induction attribs as [|[k v] attribs IH]; simpl; [lia|].
  destruct (decide (k = name)); simpl; lia.
Qed.

(** Running the transform on what it returned changes nothing. *)
Theorem transformAnchor_idempotent tagName attribs :
  transformAnchor tagName (transformAnchor tagName attribs).2
  = transformAnchor tagName attribs.
Proof.
  destruct (isExternal (default [] (attrGet attribs (lit "href")))) eqn:Hext.
  - set (out := (transformAnchor tagName attribs).2).
    assert (transformAnchor tagName attribs = (tagName, out)) as ->.
    { unfold out. rewrite -{2}(transformAnchor_tagName tagName attribs).
      by destruct (transformAnchor tagName attribs). }
    cbn [snd].
    assert (attrGet out (lit "href") = attrGet attribs (lit "href")) as Hhref
      by (by apply transformAnchor_other).
    pose proof (transformAnchor_rel tagName attribs Hext) as Hrel.
    pose proof (transformAnchor_target tagName attribs Hext) as Htarget.
    fold out in Hrel, Htarget.
    unfold transformAnchor at 1. rewrite Hhref Hext Hrel. simpl.
    rewrite -/(relSetOf (join _ _)).
    rewrite relSet_fixed (attrSet_same _ _ _ Hrel) Htarget /=.
    destruct (decide (default [] (attrGet attribs (lit "target")) = [])) as [|Hne].
    + by destruct (decide (lit "_blank" = [])).
    + by destruct (decide (default [] (attrGet attribs (lit "target")) = [])).
  - by rewrite !transformAnchor_local.
Qed.

(** The transform never drops, moves or rewrites what the author wrote
    beside [rel] and [target]: every other attribute stays at its place
    with its value, and at most two attributes are added. *)
Theorem transformAnchor_keeps tagName attribs i name value :
  attribs !! i = Some (name, value) →
  name ≠ lit "rel" → name ≠ lit "target" →
  (transformAnchor tagName attribs).2 !! i = Some (name, value) ∧
  length attribs ≤ length (transformAnchor tagName attribs).2 ≤ 2 + length attribs.
Proof.
  intros Hi Hrel Htarget. unfold transformAnchor.
  destruct (isExternal _); [|simpl; split; [done|lia]].
  pose proof (attrSet_length attribs (lit "rel")
    (join (lit " ")
       (setAdd (setAdd (newSet (relTokens (default [] (attrGet attribs (lit "rel")))))
                  (lit "noopener")) (lit "noreferrer")))) as Hlen.
  case_decide; simpl.
  - split; [by do 2 (apply attrSet_lookup; [|done])|].
    pose proof (attrSet_length
      (attrSet attribs (lit "rel")
         (join (lit " ")
            (setAdd (setAdd (newSet (relTokens (default [] (attrGet attribs (lit "rel")))))
                       (lit "noopener")) (lit "noreferrer"))))
      (lit "target") (lit "_blank")). lia.
  - split; [by apply attrSet_lookup|lia].
Qed.

Lemma transformAnchor_keeps_witness :
  [ (lit "href", lit "https://x.y"); (lit "title", lit "t") ] !! 1
  = Some (lit "title", lit "t") ∧
  lit "title" ≠ lit "rel" ∧ lit "title" ≠ lit "target" ∧
  (transformAnchor (lit "a")
     [ (lit "href", lit "https://x.y"); (lit "title", lit "t") ]).2 !! 1
  = Some (lit "title", lit "t") ∧
  length [ (lit "href", lit "https://x.y"); (lit "title", lit "t") ]
  ≤ length (transformAnchor (lit "a")
              [ (lit "href", lit "https://x.y"); (lit "title", lit "t") ]).2
  ≤ 2 + length [ (lit "href", lit "https://x.y"); (lit "title", lit "t") ].
Proof.
  split; [reflexivity|]. split; [done|]. split; [done|].
  apply (transformAnchor_keeps (lit "a")
           [ (lit "href", lit "https://x.y"); (lit "title", lit "t") ]
           1 (lit "title") (lit "t")); [reflexivity|done|done].
Defined.

(** ** Image file names *)

Lemma beforeQuery_cut value c suffix :
  (c = 63 ∨ c = 35)%N →
  beforeQuery (beforeQuery value ++ c :: suffix) = beforeQuery value.
Proof.
  intros Hc. induction value as [|x value IH]; simpl.
  - by destruct Hc as [-> | ->].
  - destruct ((x =? 63)%N || (x =? 35)%N) eqn:Hx; simpl.
    + by destruct Hc as [-> | ->].
    + by rewrite Hx IH.
Qed.

Lemma beforeQuery_plain value :
  forallb (λ c, negb ((c =? 63) || (c =? 35))%N) value = true →
  beforeQuery value = value.
Proof.
  induction value as [|x value IH]; simpl; [done|].
  intros [Hx Hv]%andb_true_iff. apply negb_true_iff in Hx. by rewrite Hx IH.
Qed.

Lemma lastIndexOf_app c before after :
  c ∉ after → lastIndexOf c (before ++ c :: after) = Some (length before).
Proof.
  intros Hafter.
  assert (lastIndexOf c after = None) as Hnone.
  { induction after as [|x after IH]; simpl; [done|].
    apply not_elem_of_cons in Hafter as [Hx Hafter]. rewrite IH //.
    destruct (N.eqb_spec x c); congruence. }
  induction before as [|x before IH]; simpl.
  - by rewrite Hnone N.eqb_refl.
  - by rewrite IH.
Qed.

Lemma lastIndexOf_None c s : c ∉ s → lastIndexOf c s = None.
Proof.
  induction s as [|x s IH]; simpl; [done|].
  intros [Hx Hs]%not_elem_of_cons. rewrite IH //.
  destruct (N.eqb_spec x c); congruence.
Qed.

(** The extensions are lower-case letters throughout. *)
Lemma IMAGE_EXTENSIONS_letters extension :
  extension ∈ IMAGE_EXTENSIONS →
  forallb (λ c, (97 <=? c) && (c <=? 122))%N extension = true.
Proof.
  intros H. apply list_elem_of_In in H. simpl in H.
  repeat destruct H as [<-|H]; try done.
Qed.

Section ImageNameProperties.

Variable unicodeLower : jsstring → jsstring.

(** A query string or a fragment never changes the answer. *)
Theorem hasImageExtension_query value c suffix :
  (c = 63 ∨ c = 35)%N →
  hasImageExtension unicodeLower (beforeQuery value ++ c :: suffix)
  = hasImageExtension unicodeLower value.
Proof. intros Hc. unfold hasImageExtension. by rewrite beforeQuery_cut. Qed.

(** A name is taken for an image when what follows its last dot is one of
    the listed extensions in any mix of cases, and never when it has no
    dot. *)
Theorem hasImageExtension_accepts name extension :
  forallb (λ c, negb ((c =? 63) || (c =? 35))%N) name = true →
  lowerBasicLatin <$> extension ∈ IMAGE_EXTENSIONS →
  hasImageExtension unicodeLower (name ++ 46%N :: extension) = true ∧
  (46%N ∉ name → hasImageExtension unicodeLower name = false).
Proof.
  intros Hname Hext.
  pose proof (IMAGE_EXTENSIONS_letters _ Hext) as Hletters.
  assert (∀ x, x ∈ extension →
            isBasicLatin x = true ∧ x ≠ 46%N ∧ x ≠ 63%N ∧ x ≠ 35%N) as Hunits.
  { intros x Hx. rewrite forallb_forall in Hletters.
    specialize (Hletters (lowerBasicLatin x)). rewrite <-list_elem_of_In in Hletters.
    specialize (Hletters ltac:(apply list_elem_of_fmap; eauto)).
    apply andb_true_iff in Hletters as [H1%N.leb_le H2%N.leb_le].
    unfold lowerBasicLatin in H1, H2. unfold isBasicLatin.
    destruct ((65 <=? x)%N && (x <=? 90)%N) eqn:Hu.
    - apply andb_true_iff in Hu as [H3%N.leb_le H4%N.leb_le].
      split; [apply N.ltb_lt; lia|lia].
    - split; [apply N.ltb_lt; lia|lia]. }
  split.
  - assert (forallb (λ c, negb ((c =? 63) || (c =? 35))%N)
              (name ++ 46%N :: extension) = true) as Hplain.
    { rewrite forallb_app Hname /=. apply forallb_forall.
      intros x Hx%list_elem_of_In. destruct (Hunits x Hx) as (_ & _ & H63 & H35).
      apply negb_true_iff, orb_false_iff. split; by apply N.eqb_neq. }
    assert (46%N ∉ extension) as Hdot.
    { intros Hin. by destruct (Hunits _ Hin) as (_ & ? & _). }
    assert (forallb isBasicLatin extension = true) as Hlatin.
    { apply forallb_forall. intros x Hx%list_elem_of_In. by destruct (Hunits x Hx). }
    unfold hasImageExtension.
    rewrite (beforeQuery_plain _ Hplain) (lastIndexOf_app _ _ _ Hdot).
    rewrite -(drop_drop _ 1 (length name)) drop_app_length /=.
    unfold toLowerCase. rewrite Hlatin. by apply bool_decide_eq_true_2.
  - intros Hdot. unfold hasImageExtension. rewrite beforeQuery_plain //.
    by rewrite lastIndexOf_None.
Qed.

End ImageNameProperties.

Lemma hasImageExtension_query_witness :
  (63 = 63 ∨ 63 = 35)%N ∧
  hasImageExtension (λ s, s) (beforeQuery (lit "a/b.PNG") ++ 63%N :: lit "v=1.exe")
  = hasImageExtension (λ s, s) (lit "a/b.PNG").
Proof.
  split; [by left|].
  apply (hasImageExtension_query (λ s, s) (lit "a/b.PNG") 63%N (lit "v=1.exe")).
  by left.
Defined.

Lemma hasImageExtension_accepts_witness :
  forallb (λ c, negb ((c =? 63) || (c =? 35))%N) (lit "a/b.tar") = true ∧
  lowerBasicLatin <$> lit "WebP" ∈ IMAGE_EXTENSIONS ∧
  hasImageExtension (λ s, s) (lit "a/b.tar" ++ 46%N :: lit "WebP") = true ∧
  (46%N ∉ lit "a/b.tar" → hasImageExtension (λ s, s) (lit "a/b.tar") = false).
Proof.
  assert (lowerBasicLatin <$> lit "WebP" ∈ IMAGE_EXTENSIONS) as Hext
    by (apply (bool_decide_unpack _); vm_compute; exact I).
  split; [reflexivity|]. split; [exact Hext|].
  apply (hasImageExtension_accepts (λ s, s) (lit "a/b.tar") (lit "WebP"));
    [reflexivity|exact Hext].
Defined.

(** ** The start hint and the tokenizer, on normalized sources *)

(** A run of [.] is followed by a line terminator or by nothing. *)
Lemma dotRun_rest s :
  drop (length (dotRun s)) s = [] ∨
  ∃ d rest, drop (length (dotRun s)) s = d :: rest ∧ isLineTerminator d = true.
Proof.
  induction s as [|c s IH]; simpl; [by left|].
  destruct (isLineTerminator c) eqn:Hc; simpl; [right; eauto|done].
Qed.

Lemma startScan_index lineStart index s found :
  startScan lineStart index s = Some found → index ≤ found.
Proof.
  revert lineStart index. induction s as [|c s IH]; intros lineStart index; simpl.
  - destruct (lineStart && _); [intros [= <-]; lia|done].
  - destruct (lineStart && _); [intros [= <-]; lia|].
    intros H%IH. lia.
Qed.

Lemma start_zero src : start src = Some 0 ↔ startPattern src = true.
Proof.
  unfold start. destruct src as [|c src]; cbn [startScan andb].
  - by destruct (startPattern []).
  - destruct (startPattern (c :: src)); [done|].
    split; [|done]. intros H%startScan_index. lia.
Qed.

Lemma startPattern_matches src :
  (∀ c, c ∈ src → isLineTerminator c = true → c = LF) →
  startPattern src = true →
  ∃ termContent len,
    matchTerm src = Some (termContent, len) ∧
    is_Some (matchDefinition (drop len src)).
Proof.
  intros Hnormal. unfold startPattern, matchTerm.
  destruct (drop (leadingSpaces src `min` 3) src) as [|c rest]; [done|].
  destruct (negb (c =? COLON)%N && negb (isWhiteSpace c)); [|done].
  destruct (drop (length (lineOf src)) src) as [|x next] eqn:Hline; [done|].
  cbn [andb]. intros [Hk Hmark]%andb_true_iff. apply bool_decide_eq_true in Hk.
  eexists _, _. split; [done|].
  assert (drop (S (length (lineOf src))) src = next) as Hnext.
  { replace (S (length (lineOf src))) with (length (lineOf src) + 1) by lia.
    by rewrite -drop_drop Hline. }
  rewrite Hnext. unfold matchDefinition. rewrite decide_True //.
  destruct (drop (leadingSpaces next) next) as [|c' [|w rest']] eqn:Hdrop; try done.
  rewrite Hmark.
  assert (drop (leadingSpaces next + 2 + length (dotRun rest')) next
          = drop (length (dotRun rest')) rest') as ->.
  { rewrite -drop_drop -drop_drop Hdrop. done. }
  destruct (dotRun_rest rest') as [Hnil|(d & tail & Heq & Hd)].
  { rewrite Hnil. by eexists. }
  rewrite Heq. assert (d = LF) as ->; [|by eexists].
  apply Hnormal; [|done].
  assert (d ∈ rest') as H1.
  { apply (subseteq_drop (length (dotRun rest'))). rewrite Heq. by left. }
  assert (d ∈ next) as H2.
  { apply (subseteq_drop (leadingSpaces next)). rewrite Hdrop. by do 2 right. }
  apply (subseteq_drop (S (length (lineOf src)))). by rewrite Hnext.
Qed.

(** On a source whose only line terminator is the line feed (the lexer
    rewrites carriage returns before the extension sees the source), a
    start hint of 0 is kept: the tokenizer matches there. *)
Theorem start_tokenizer (TokenList : Type) (inlineTokens : jsstring → TokenList) src :
  (∀ c, c ∈ src → isLineTerminator c = true → c = LF) →
  start src = Some 0 →
  is_Some (tokenizer inlineTokens src).
Proof.
  intros Hnormal Hstart%start_zero.
  apply tokenizer_head. by apply startPattern_matches.
Qed.

Lemma start_tokenizer_witness :
  (∀ c, c ∈ sampleDefinitionList → isLineTerminator c = true → c = LF) ∧
  start sampleDefinitionList = Some 0 ∧
  is_Some (tokenizer (λ s : jsstring, s) sampleDefinitionList).
Proof.
  assert (∀ c, c ∈ sampleDefinitionList → isLineTerminator c = true → c = LF)
    as Hnormal.
  { intros c Hc%list_elem_of_In. vm_compute in Hc.
    repeat destruct Hc as [<-|Hc]; try done. }
  split; [exact Hnormal|]. split; [reflexivity|].
  apply (start_tokenizer jsstring (λ s, s) sampleDefinitionList Hnormal).
  reflexivity.
Defined.

(** A line separator inside the definition line is enough for the hint
    and the tokenizer to part ways. *)
Example start_without_match :
  start (lit "T" ++ [LF] ++ lit ": a" ++ [8232%N] ++ lit "b") = Some 0 ∧
  tokenizer (λ s : jsstring, s) (lit "T" ++ [LF] ++ lit ": a" ++ [8232%N] ++ lit "b")
  = None.
Proof. split; vm_compute; reflexivity. Qed.
